(** * Entity lookup: [Details], [loadDetails] and [loadChanges]

    A shallow embedding of the entity lookup of the datahub
    (package [entity], type [Lookup]) together with the part of the
    ordered key/value substrate it drives: prefix iterators over a
    read transaction, the dataset registry of the store and the JSON
    decoder.  The properties proved further down are those the
    specification of the lookup engine states about [Details]. *)

From Stdlib Require Import Strings.Byte.
From stdpp Require Import gmap strings list fin_maps pretty sorting.

Set Default Proof Using "Type".

Abbreviation bytes := (list byte).

(** [types.InternalID] is a [uint64], [types.InternalDatasetID] a
    [uint32]; both are read as unsigned numbers. *)
Abbreviation InternalID := N (only parsing).
Abbreviation InternalDatasetID := N (only parsing).

(** ** Results, errors and the trace of substrate calls *)

(** The error taxonomy of the lookup: compaction of the identifier
    failed, the curie has no internal id, a stored document does not
    decode. *)
Inductive error : Type :=
  | InvalidIdentifier
  | NotFound
  | Corrupt.

(** What a Go call comes back with: a value, an [error], or a run-time
    panic (slice or index out of range). *)
Inductive result (A : Type) : Type :=
  | Ok (a : A)
  | Err (e : error)
  | Panic.
Arguments Ok {A} a.
Arguments Err {A} e.
Arguments Panic {A}.

(** Calls into the key/value engine, in the order they are made.
    [TxnSet] and [TxnCommit] are the write side of the engine's
    interface. *)
Inductive event : Type :=
  | TxnOpen (update : bool)
  | TxnSet (key value : bytes)
  | TxnCommit
  | TxnDiscard
  | IterOpen (prefix : bytes)
  | IterClose (prefix : bytes).

(** A computation: the calls it made and what it came back with. *)
Definition M (A : Type) : Type := (list event * result A)%type.

Global Instance M_ret : MRet M := λ A a, ([], Ok a).

Global Instance M_bind : MBind M := λ A B k m,
  match m with
  | (es, Ok a) => let '(es', r) := k a in (es ++ es', r)
  | (es, Err e) => (es, Err e)
  | (es, Panic) => (es, Panic)
  end.

Definition emit (e : event) : M unit := ([e], Ok tt).

Definition lift {A} (r : result A) : M A := ([], r).

(** [defer f()]: the call runs when the function is left, on a normal
    return, on an error return and on a panic alike. *)
Definition defer {A} (e : event) (m : M A) : M A := (m.1 ++ [e], m.2).

(** A [for] loop over [l] whose body may return early with an error or
    panic. *)
Fixpoint foldM {A B} (f : A → B → M A) (a : A) (l : list B) : M A :=
  match l with
  | [] => mret a
  | x :: l' => a' ← f a x; foldM f a' l'
  end.

(** ** The key/value substrate *)

Definition Item : Type := (bytes * bytes)%type.

(** The state of a database as a read sees it: its key/value pairs in
    ascending key order and, modelled from the spec, the table of the
    internal ids assigned to curies. *)
Record DB : Type := mkDB {
  dbItems : list Item;
  dbEntityIDs : gmap string InternalID;
}.

(** A transaction reads the state the database had when it was opened. *)
Record Txn : Type := mkTxn {
  txnUpdate : bool;
  txnView : DB;
}.

Definition NewTransaction (b : DB) (update : bool) : Txn :=
  {| txnUpdate := update; txnView := b |}.

(** [bytes.HasPrefix k p]. *)
Fixpoint hasPrefix (k p : bytes) : bool :=
  match p, k with
  | [], _ => true
  | _ :: _, [] => false
  | a :: p', b :: k' => Byte.eqb a b && hasPrefix k' p'
  end.

(** [bytes.Compare a b < 0]: lexicographic order of byte strings. *)
Fixpoint bytesLt (a b : bytes) : bool :=
  match a, b with
  | _, [] => false
  | [], _ :: _ => true
  | x :: a', y :: b' =>
      if (Byte.to_N x <? Byte.to_N y)%N then true
      else if (Byte.to_N y <? Byte.to_N x)%N then false
      else bytesLt a' b'
  end.

(** [it.Seek(p)]: move to the first item whose key is not below [p]. *)
Fixpoint Seek (p : bytes) (items : list Item) : list Item :=
  match items with
  | [] => []
  | it :: rest => if bytesLt it.1 p then Seek p rest else items
  end.

(** The items a loop [for ; it.ValidForPrefix(p); it.Next()] visits from
    the current position. *)
Fixpoint whileValidForPrefix (p : bytes) (items : list Item) : list Item :=
  match items with
  | [] => []
  | it :: rest => if hasPrefix it.1 p then it :: whileValidForPrefix p rest else []
  end.

(** The items visited by a prefix iterator of [rtxn] that is positioned
    with [Seek(p)] (or [Rewind()], which seeks to the iterator's prefix)
    and advanced while [ValidForPrefix(p)] holds. *)
Definition iterate (rtxn : Txn) (p : bytes) : list Item :=
  whileValidForPrefix p (Seek p (dbItems (txnView rtxn))).

(** [binary.BigEndian.Uint32(b)]; panics when [b] has fewer than four
    bytes. *)
Definition Uint32 (b : bytes) : option N :=
  match b with
  | b0 :: b1 :: b2 :: b3 :: _ =>
      Some (N.lor (N.lor (N.lor (Byte.to_N b3) (N.shiftl (Byte.to_N b2) 8))
                         (N.shiftl (Byte.to_N b1) 16))
                  (N.shiftl (Byte.to_N b0) 24))
  | _ => None
  end.

(** [Uint32(key[10:])]: the slice expression panics on a key shorter
    than ten bytes, the decoder on fewer than four bytes after it. *)
Definition datasetIDOfKey (key : bytes) : option InternalDatasetID :=
  Uint32 (drop 10 key).

(** ** The store behind the lookup *)

(** [store.BadgerStore], the interface [Lookup] holds its store by.
    [LookupDatasetID] answers for one name; [LookupDatasetIDs] below is
    built on it. *)
Record BadgerStore : Type := mkBadgerStore {
  GetDB : DB;
  LookupDatasetID : string → option InternalDatasetID;
  IsDatasetDeleted : InternalDatasetID → bool;
  LookupDatasetName : InternalDatasetID → option string;
}.

(** Modelled from the spec: [LookupDatasetIDs] is missing from the
    sources at hand.  It resolves the names to internal dataset ids;
    names not found are silently dropped from the result. *)
Definition LookupDatasetIDs (s : BadgerStore) (datasetNames : list string)
    : list InternalDatasetID :=
  omap (LookupDatasetID s) datasetNames.

(** [Lookup]: the store and the namespace manager, the latter through
    the one method used here, [asCURIE]. *)
Record Lookup : Type := mkLookup {
  badger : BadgerStore;
  asCURIE : string → result string;
}.

(** Modelled from the spec: [InternalIDForCURIE] is missing from the
    sources at hand.  It resolves the curie to its internal id through
    the transaction and fails with [NotFound] if the identifier has
    never been assigned. *)
Definition InternalIDForCURIE (rtxn : Txn) (curie : string) : result InternalID :=
  match dbEntityIDs (txnView rtxn) !! curie with
  | Some internalID => Ok internalID
  | None => Err NotFound
  end.

(** The order in which [for k, v := range m] visits a Go map is not
    specified: any enumeration of the entries may occur. *)
Record RangeOrder : Type := mkRangeOrder {
  rangeOf :> gmap InternalDatasetID bytes → list (InternalDatasetID * bytes);
  rangeOf_perm : ∀ m, rangeOf m ≡ₚ map_to_list m;
}.

(** ** The lookup *)

(** The values of the result map: the diagnostic string, or the
    [{"latest": ..., "changes": ...}] map of one dataset. *)
Inductive detail (Doc : Type) : Type :=
  | Diagnostic (msg : string)
  | Dataset (latest : Doc) (changes : list Doc).
Arguments Diagnostic {Doc} msg.
Arguments Dataset {Doc} latest changes.

(** The variables of the locator loop of [loadDetails]. *)
Record scanState : Type := mkScan {
  prevValueBytes : bytes;
  previousDatasetID : InternalDatasetID;
  partials : gmap InternalDatasetID bytes;
}.

Definition scanInit : scanState :=
  {| prevValueBytes := []; previousDatasetID := 0%N; partials := ∅ |}.

(** The inner loop over [scope], left at the first match. *)
Fixpoint scopeHas (scope : list InternalDatasetID)
    (currentDatasetID : InternalDatasetID) : bool :=
  match scope with
  | [] => false
  | id :: rest => if (id =? currentDatasetID)%N then true else scopeHas rest currentDatasetID
  end.

Definition datasetIncluded (scope : list InternalDatasetID)
    (currentDatasetID : InternalDatasetID) : bool :=
  if (length scope =? 0)%nat then true else scopeHas scope currentDatasetID.

Section Lookup.
(** The collaborators outside the package: the JSON decoder into a
    document, the two key prefixes of package [store], and the order
    of map iteration. *)
Context {Doc : Type}.
Variable Unmarshal : bytes → option Doc.
Variable SeekEntity : InternalID → bytes.
Variable SeekEntityChanges : InternalDatasetID → InternalID → bytes.
Variable range : RangeOrder.

(** One round of the locator loop.  The value is taken with
    [item.ValueCopy(nil)], whose error the code drops. *)
Definition locatorStep (l : Lookup) (scope : list InternalDatasetID)
    (st : scanState) (item : Item) : result scanState :=
  match datasetIDOfKey item.1 with
  | None => Panic
  | Some currentDatasetID =>
      let datasetDeleted := IsDatasetDeleted (badger l) currentDatasetID in
      if datasetDeleted || negb (datasetIncluded scope currentDatasetID) then Ok st
      else
        let partials' :=
          if negb (previousDatasetID st =? 0)%N
             && negb (currentDatasetID =? previousDatasetID st)%N
          then <[previousDatasetID st := prevValueBytes st]> (partials st)
          else partials st in
        Ok {| prevValueBytes := item.2;
              previousDatasetID := currentDatasetID;
              partials := partials' |}
  end.

(** The locator loop and the commit of the pending value after it. *)
Definition scanLocator (l : Lookup) (rtxn : Txn) (internalEntityID : InternalID)
    (scope : list InternalDatasetID) : M (gmap InternalDatasetID bytes) :=
  st ← foldM (λ st item, lift (locatorStep l scope st item)) scanInit
             (iterate rtxn (SeekEntity internalEntityID));
  mret (if negb (previousDatasetID st =? 0)%N
       then <[previousDatasetID st := prevValueBytes st]> (partials st)
       else partials st).

Definition loadChanges (rtxn : Txn) (internalEntityID : InternalID)
    (internalDatasetID : InternalDatasetID) : M (list Doc) :=
  let seekPrefix := SeekEntityChanges internalDatasetID internalEntityID in
  emit (IterOpen seekPrefix);;
  defer (IterClose seekPrefix)
    (foldM (λ result item,
              match Unmarshal item.2 with
              | None => lift (Err Corrupt)
              | Some entity => mret (result ++ [entity])
              end)
           [] (iterate rtxn seekPrefix)).

(** One round of the loop over [partials]. *)
Definition assembleStep (l : Lookup) (rtxn : Txn) (internalEntityID : InternalID)
    (result : gmap string (detail Doc)) (kv : InternalDatasetID * bytes)
    : M (gmap string (detail Doc)) :=
  let '(internalDatasetID, entityBytes) := kv in
  match LookupDatasetName (badger l) internalDatasetID with
  | None =>
      mret (<[pretty internalDatasetID :=
               Diagnostic "UNEXPECTED: dataset name not found"]> result)
  | Some n =>
      match Unmarshal entityBytes with
      | None => lift (Err Corrupt)
      | Some entity =>
          changes ← loadChanges rtxn internalEntityID internalDatasetID;
          mret (<[n := Dataset entity changes]> result)
      end
  end.

Definition loadDetails (l : Lookup) (rtxn : Txn) (internalEntityID : InternalID)
    (scope : list InternalDatasetID) : M (gmap string (detail Doc)) :=
  let entityLocatorPrefixBuffer := SeekEntity internalEntityID in
  emit (IterOpen entityLocatorPrefixBuffer);;
  defer (IterClose entityLocatorPrefixBuffer)
    (parts ← scanLocator l rtxn internalEntityID scope;
     foldM (assembleStep l rtxn internalEntityID) ∅ (range parts)).

(** [Details] when the store is in state [l] at the moment the read
    transaction opens and in state [now] for the calls made on
    [l.badger] afterwards.  The two differ when a writer commits in
    between. *)
Definition DetailsDuring (l now : Lookup) (id : string)
    (datasetNames : list string) : M (gmap string (detail Doc)) :=
  curie ← lift (asCURIE l id);
  let b := GetDB (badger l) in
  let rtxn := NewTransaction b false in
  emit (TxnOpen false);;
  defer TxnDiscard
    (internalID ← lift (InternalIDForCURIE rtxn curie);
     let scope := LookupDatasetIDs (badger now) datasetNames in
     loadDetails now rtxn internalID scope).

(** [Details] on a store no writer touches during the call. *)
Definition Details (l : Lookup) (id : string) (datasetNames : list string)
    : M (gmap string (detail Doc)) :=
  DetailsDuring l l id datasetNames.

End Lookup.

(** ** What the loops compute, stated directly *)

(** A loop whose body makes no substrate call. *)
Fixpoint foldR {A B} (f : A → B → result A) (a : A) (l : list B) : result A :=
  match l with
  | [] => Ok a
  | x :: l' =>
      match f a x with
      | Ok a' => foldR f a' l'
      | Err e => Err e
      | Panic => Panic
      end
  end.

(** The test a locator entry has to pass: its dataset is not flagged
    deleted and is within the scope. *)
Definition survives (s : BadgerStore) (scope : list N) (d : N) : bool :=
  negb (IsDatasetDeleted s d) && datasetIncluded scope d.

(** The value the pass holds for its pending dataset, written back. *)
Definition commit (st : scanState) : gmap N bytes :=
  if negb (previousDatasetID st =? 0)%N
  then <[previousDatasetID st := prevValueBytes st]> (partials st)
  else partials st.

(** The effect of one locator entry on the committed accumulator. *)
Definition record (s : BadgerStore) (scope : list N)
    (m : gmap N bytes) (item : Item) : gmap N bytes :=
  match datasetIDOfKey item.1 with
  | Some d => if survives s scope d && negb (d =? 0)%N then <[d := item.2]> m else m
  | None => m
  end.

(** What the locator pass leaves in its accumulator: for each dataset
    that passes the test, 0 apart, the value of its last entry. *)
Definition latestPerDataset (s : BadgerStore) (scope : list N)
    (items : list Item) : gmap N bytes :=
  foldl (record s scope) ∅ items.

(** The values of the entries of dataset [d] among [items], in order. *)
Definition valuesOf (d : N) (items : list Item) : list bytes :=
  (filter (λ it : Item, datasetIDOfKey it.1 = Some d) items).*2.

(** Every key of the run holds a dataset id. *)
Definition decodable (items : list Item) : Prop :=
  Forall (λ it : Item, is_Some (datasetIDOfKey it.1)) items.

(** The key a dataset gets in the result map. *)
Definition resultKey (s : BadgerStore) (d : N) : string :=
  match LookupDatasetName s d with
  | Some n => n
  | None => pretty d
  end.

(** Decoding a run of stored documents, all or nothing. *)
Definition decodeAll {Doc} (Unmarshal : bytes → option Doc)
    (values : list bytes) : result (list Doc) :=
  match mapM Unmarshal values with
  | Some docs => Ok docs
  | None => Err Corrupt
  end.

(** The entry one dataset of the accumulator contributes. *)
Definition entryOf {Doc} (Unmarshal : bytes → option Doc)
    (SeekEntityChanges : N → N → bytes) (s : BadgerStore) (rtxn : Txn)
    (internalEntityID : N) (kv : N * bytes) : result (string * detail Doc) :=
  match LookupDatasetName s kv.1 with
  | None => Ok (pretty kv.1, Diagnostic "UNEXPECTED: dataset name not found")
  | Some n =>
      match Unmarshal kv.2 with
      | None => Err Corrupt
      | Some entity =>
          match decodeAll Unmarshal
                  (iterate rtxn (SeekEntityChanges kv.1 internalEntityID)).*2 with
          | Ok changes => Ok (n, Dataset entity changes)
          | Err e => Err e
          | Panic => Panic
          end
      end
  end.

(** One round of the loop over the accumulator, without its trace. *)
Definition insertEntry {Doc} (Unmarshal : bytes → option Doc)
    (SeekEntityChanges : N → N → bytes) (s : BadgerStore) (rtxn : Txn)
    (internalEntityID : N) (m : gmap string (detail Doc)) (kv : N * bytes)
    : result (gmap string (detail Doc)) :=
  match entryOf Unmarshal SeekEntityChanges s rtxn internalEntityID kv with
  | Ok (k, v) => Ok (<[k := v]> m)
  | Err e => Err e
  | Panic => Panic
  end.

(** ** The call as a whole *)

(** The read transaction [Details] opens on the store of [l]. *)
Definition readTxn (l : Lookup) : Txn := NewTransaction (GetDB (badger l)) false.

(** The internal id the lookup resolves [id] to. *)
Definition entityOf (l : Lookup) (id : string) : option N :=
  match asCURIE l id with
  | Ok curie => dbEntityIDs (GetDB (badger l)) !! curie
  | _ => None
  end.

(** The entity whose locator keys start with [prefix] has an entry in
    dataset [d]. *)
Definition appearsIn (b : DB) (prefix : bytes) (d : N) : Prop :=
  ∃ item : Item, item ∈ dbItems b ∧ hasPrefix item.1 prefix = true
                 ∧ datasetIDOfKey item.1 = Some d.

(** The keys of a database state ascend strictly. *)
Definition keysAscending (b : DB) : Prop :=
  StronglySorted (λ x y : Item, bytesLt x.1 y.1 = true) (dbItems b).

(** ** The engine's view of a trace *)

(** The state of the key/value engine: the committed pairs, the writes
    pending in the open transaction if there is one, and the number of
    open iterators. *)
Record engine : Type := mkEngine {
  committed : list Item;
  pending : option (list Item);
  iterators : nat;
}.

(** [put k v items]: [items] with [k] bound to [v], key order kept. *)
Fixpoint put (k v : bytes) (items : list Item) : list Item :=
  match items with
  | [] => [(k, v)]
  | it :: rest =>
      if bytesLt it.1 k then it :: put k v rest
      else if bytesLt k it.1 then (k, v) :: items
      else (k, v) :: rest
  end.

Definition engineStep (en : engine) (ev : event) : engine :=
  match ev with
  | TxnOpen _ => {| committed := committed en; pending := Some []; iterators := iterators en |}
  | TxnSet k v =>
      {| committed := committed en;
         pending := (λ ws, ws ++ [(k, v)]) <$> pending en;
         iterators := iterators en |}
  | TxnCommit =>
      {| committed := foldl (λ items w, put w.1 w.2 items) (committed en)
                            (default [] (pending en));
         pending := None; iterators := iterators en |}
  | TxnDiscard => {| committed := committed en; pending := None; iterators := iterators en |}
  | IterOpen _ => {| committed := committed en; pending := pending en; iterators := S (iterators en) |}
  | IterClose _ => {| committed := committed en; pending := pending en; iterators := pred (iterators en) |}
  end.

Definition engineRun (en : engine) (trace : list event) : engine :=
  foldl engineStep en trace.

(** An engine at rest on the pairs [items]. *)
Definition atRest (items : list Item) : engine :=
  {| committed := items; pending := None; iterators := 0 |}.

(** The events of a read: nothing is set and nothing committed. *)
Definition readOnly (ev : event) : Prop :=
  match ev with
  | TxnOpen update => update = false
  | TxnSet _ _ | TxnCommit => False
  | TxnDiscard | IterOpen _ | IterClose _ => True
  end.

(** A trace that only reads and leaves the engine as it found it. *)
Definition quiet (trace : list event) : Prop :=
  Forall readOnly trace ∧ ∀ en, engineRun en trace = en.

(** No iterator is opened in the trace. *)
Definition noScan (trace : list event) : Prop :=
  Forall (λ ev, ∀ p, ev ≠ IterOpen p) trace.

(** ** Two properties as the specification words them *)

(** The scope-filtering property as the specification words it: for a
    non-empty filter the keys of the returned map are exactly the
    filter names that resolve to a dataset which is not deleted and in
    which the entity appears. *)
Definition scopeFilterClaim {Doc} (Unmarshal : bytes → option Doc)
    (SeekEntity : N → bytes) (SeekEntityChanges : N → N → bytes)
    (range : RangeOrder) (l : Lookup) (id : string) (datasetNames : list string)
    : Prop :=
  datasetNames ≠ [] →
  ∀ m, (Details Unmarshal SeekEntity SeekEntityChanges range l id datasetNames).2 = Ok m →
  ∀ k, k ∈ dom m ↔
       k ∈ datasetNames
       ∧ ∃ e d, entityOf l id = Some e
                ∧ LookupDatasetID (badger l) k = Some d
                ∧ IsDatasetDeleted (badger l) d = false
                ∧ appearsIn (GetDB (badger l)) (SeekEntity e) d.

(** The snapshot property as the specification words it: the state
    [now] the store has moved to after the transaction was opened on
    [l] has no bearing on what the call returns. *)
Definition snapshotClaim {Doc} (Unmarshal : bytes → option Doc)
    (SeekEntity : N → bytes) (SeekEntityChanges : N → N → bytes)
    (range : RangeOrder) (l now : Lookup) (id : string)
    (datasetNames : list string) : Prop :=
  (DetailsDuring Unmarshal SeekEntity SeekEntityChanges range l now id datasetNames).2
  = (Details Unmarshal SeekEntity SeekEntityChanges range l id datasetNames).2.

(** ** A store to run the lookup on

    Keys are laid out as in package [store]: a two-byte index tag, then
    for the locator index the entity id (eight bytes), the dataset id
    (four bytes) and an ordinal; for the change log the dataset id, the
    entity id and an ordinal.  Numbers are big-endian. *)

Fixpoint bigEndian (width : nat) (v : N) : bytes :=
  match width with
  | O => []
  | S w => bigEndian w (v / 256)%N ++ [default x00 (Byte.of_N (v mod 256)%N)]
  end.

Definition demoSeekEntity (e : N) : bytes := [x00; x01] ++ bigEndian 8 e.

Definition demoSeekEntityChanges (d e : N) : bytes :=
  [x00; x02] ++ bigEndian 4 d ++ bigEndian 8 e.

Definition locatorKey (e d ordinal : N) : bytes :=
  demoSeekEntity e ++ bigEndian 4 d ++ bigEndian 8 ordinal.

Definition changeKey (d e ordinal : N) : bytes :=
  demoSeekEntityChanges d e ++ bigEndian 8 ordinal.

(** A stand-in for the JSON decoder: a document is accepted when it
    opens with a brace, and is kept as its text.  On the documents of
    the example stores below it answers as [json.Unmarshal] into a map
    does: these are JSON objects, which both accept, save for the one
    damaged document of [corruptItems], which both refuse. *)
Definition demoUnmarshal (b : bytes) : option string :=
  match b with
  | x7b :: _ => Some (String.string_of_list_byte b)
  | _ => None
  end.

Definition doc (s : string) : bytes := String.list_byte_of_string s.

(** The text of a stored document. *)
Definition text (b : bytes) : string := String.string_of_list_byte b.

(** JSON text: a string in quotes, and an object from its fields in
    order, each value given as JSON text. *)
Definition jstr (s : string) : bytes := [x22] ++ doc s ++ [x22].

Fixpoint jfields (fields : list (string * bytes)) : bytes :=
  match fields with
  | [] => []
  | (k, v) :: rest =>
      jstr k ++ [x3a] ++ v ++
      match rest with
      | [] => []
      | _ :: _ => [x2c] ++ jfields rest
      end
  end.

Definition jobj (fields : list (string * bytes)) : bytes :=
  [x7b] ++ jfields fields ++ [x7d].

(** The documents of the example stores, all of them JSON objects: the
    three versions of [ex:3] in [people], and one document each for
    the other datasets. *)
Definition frankV1 : bytes := jobj [("name", jstr "Frank")].

Definition frankV2 : bytes := jobj [("name", jstr "Frank"); ("extra", jobj [])].

Definition frankV3 : bytes := jobj [("name", jstr "Franklin")].

Definition telDoc : bytes := jobj [("tel", doc "1")].

Definition zeroDoc : bytes := jobj [("z", doc "1")].


Definition cutDoc : bytes := jobj [("cut", doc "1")].

Definition demoRange : RangeOrder :=
  {| rangeOf := map_to_list; rangeOf_perm := λ m, reflexivity (map_to_list m) |}.

(** The dataset registry as a table of names and internal ids. *)
Fixpoint idOfName (table : list (string * N)) (name : string) : option N :=
  match table with
  | [] => None
  | (n, d) :: rest => if String.eqb n name then Some d else idOfName rest name
  end.

Fixpoint nameOfID (table : list (string * N)) (id : N) : option string :=
  match table with
  | [] => None
  | (n, d) :: rest => if (d =? id)%N then Some n else nameOfID rest id
  end.

Definition demoLookup (items : list Item) (table : list (string * N))
    (deleted : list N) : Lookup :=
  {| badger :=
       {| GetDB := {| dbItems := items;
                      dbEntityIDs := {[ "ex:3" := 8%N; "ex:9" := 9%N ]} |};
          LookupDatasetID := idOfName table;
          IsDatasetDeleted := λ d, bool_decide (d ∈ deleted);
          LookupDatasetName := nameOfID table |};
     asCURIE := λ id, if String.prefix "ex:" id then Ok id else Err InvalidIdentifier |}.

(** Entity [ex:3] (internal id 8) with two versions in dataset
    [people] (id 1) and one in [contacts] (id 2). *)
Definition exItems : list Item :=
  [ (locatorKey 8 1 1, frankV1);
    (locatorKey 8 1 2, frankV2);
    (locatorKey 8 2 1, telDoc);
    (changeKey 1 8 1, frankV1);
    (changeKey 1 8 2, frankV2);
    (changeKey 2 8 1, telDoc) ].

Definition exTable : list (string * N) := [("people", 1%N); ("contacts", 2%N)].

Definition exLookup : Lookup := demoLookup exItems exTable [].

(** The same store after [people] has been flagged deleted. *)
Definition exLookupDeleted : Lookup := demoLookup exItems exTable [1%N].

(** A later state of the example store: a third version of [ex:3] has
    been written to [people]; the dataset registry is as before. *)
Definition exItemsLater : list Item :=
  [ (locatorKey 8 1 1, frankV1);
    (locatorKey 8 1 2, frankV2);
    (locatorKey 8 1 3, frankV3);
    (locatorKey 8 2 1, telDoc);
    (changeKey 1 8 1, frankV1);
    (changeKey 1 8 2, frankV2);
    (changeKey 1 8 3, frankV3);
    (changeKey 2 8 1, telDoc) ].

Definition exLookupLater : Lookup := demoLookup exItemsLater exTable [].

(** A store whose only dataset, [zero], has internal id 0. *)
Definition zeroItems : list Item :=
  [ (locatorKey 8 0 1, zeroDoc); (changeKey 0 8 1, zeroDoc) ].

Definition zeroLookup : Lookup := demoLookup zeroItems [("zero", 0%N)] [].



(** The first change of [people] does not decode. *)
Definition corruptItems : list Item :=
  [ (locatorKey 8 1 1, frankV1);
    (locatorKey 8 1 2, frankV2);
    (locatorKey 8 2 1, telDoc);
    (changeKey 1 8 1, doc "name:Frank");
    (changeKey 1 8 2, frankV2);
    (changeKey 2 8 1, telDoc) ].

Definition corruptLookup : Lookup := demoLookup corruptItems exTable [].

Abbreviation demoDetails :=
  (Details demoUnmarshal demoSeekEntity demoSeekEntityChanges demoRange).

(** The map a call came back with, empty if it came back with none. *)
Definition returned {A} (m : M (gmap string A)) : gmap string A :=
  match m.2 with
  | Ok r => r
  | _ => ∅
  end.

(** The call came back with a map that has the key [k]. *)
Definition returnsKey {A} (k : string) (m : M (gmap string A)) : bool :=
  match m.2 with
  | Ok r => bool_decide (is_Some (r !! k))
  | _ => false
  end.

(** ** The entries a call reads *)

(** The locator entries of the entity, as the call visits them. *)
Definition locatorEntries (SeekEntity : N → bytes) (l : Lookup) (e : N) : list Item :=
  iterate (readTxn l) (SeekEntity e).

(** The change-log entries of the entity in dataset [d], as visited. *)
Definition changeEntries (SeekEntityChanges : N → N → bytes) (l : Lookup)
    (e d : N) : list Item :=
  iterate (readTxn l) (SeekEntityChanges d e).

(** The accumulator the locator pass of [Details l id datasetNames]
    leaves for the entity [e]. *)
Definition accumulatorOf (SeekEntity : N → bytes) (l : Lookup)
    (datasetNames : list string) (e : N) : gmap N bytes :=
  latestPerDataset (badger l) (LookupDatasetIDs (badger l) datasetNames)
    (locatorEntries SeekEntity l e).

(** The map iteration taken in the opposite order. *)
Definition demoRangeRev : RangeOrder :=
  {| rangeOf := λ m, reverse (map_to_list m);
     rangeOf_perm := λ m, reverse_Permutation (map_to_list m) |}.

(** A locator key of [ex:3] cut off after two bytes of the dataset id. *)
Definition shortItems : list Item :=
  [ (demoSeekEntity 8 ++ [x00; x00], cutDoc);
    (locatorKey 8 1 1, frankV1) ].

Definition shortLookup : Lookup := demoLookup shortItems exTable [].

(* ================================================================== *)
(** * The web middleware (package [web]) *)

(** [strings.HasPrefix(s, prefix)]. *)
Definition HasPrefix (s prefix : string) : bool := String.prefix prefix s.

(** The [skipper] closure of [NewMiddleware], on the request's
    [URL.Path].  [mimiroIcon] and [favIcon] are constants of the
    package that the sources at hand do not define. *)
Definition skipper (mimiroIcon favIcon : string) (path : string) : bool :=
  if HasPrefix path "/health" then true
  else if HasPrefix path mimiroIcon then true
  else if HasPrefix path favIcon then true
  else if HasPrefix path "/api" then true
  else if HasPrefix path "/static" then true
  else if HasPrefix path "/security/token" then true
  else false.

(** The fields of [conf.Env] the middleware reads. *)
Record AuthEnv : Type := mkAuthEnv {
  Middleware : string;
  Audience : list string;
  Issuer : list string;
  WellKnown : string;
}.

Record Env : Type := mkEnv {
  Auth : AuthEnv;
  AdminUserName : string;
  AdminPassword : string;
}.

Section Web.
(** The key type of the node's key pairs, the request context, the
    state a handler acts on, the errors a handler returns and echo's
    [NewHTTPError]. *)
Context {PublicKeyT Ctx W HErr : Type}.
Variable NewHTTPError : N → string → HErr.

(** The fields of [security.ServiceCore] the middleware reads. *)
Record KeyPair : Type := mkKeyPair {
  PublicKey : PublicKeyT;
}.

Record NodeInfoT : Type := mkNodeInfo {
  NodeID : string;
  KeyPairs : list KeyPair;
}.

Record ServiceCore : Type := mkServiceCore {
  NodeInfo : NodeInfoT;
}.

(** [middlewares.JwtConfig]; the node fields are unset until
    [setupJWT] fills them in. *)
Record JwtConfig : Type := mkJwtConfig {
  Skipper : string → bool;
  JwtAudience : list string;
  JwtIssuer : list string;
  Wellknown : string;
  NodePublicKey : option PublicKeyT;
  NodeIssuer : list string;
  NodeAudience : list string;
}.

(** An [echo.MiddlewareFunc], by the library call that made it.  The
    logger and the metrics client the calls are handed are left out. *)
Inductive MiddlewareFunc : Type :=
  | LoggerFilter (skip : string → bool)
  | CORSWithConfig (AllowOrigins AllowHeaders : list string)
  | JWTHandler (config : JwtConfig)
  | RecoverWithConfig.

Definition setupJWT (env : Env) (core : ServiceCore) (skip : string → bool)
    : result MiddlewareFunc :=
  let config :=
    {| Skipper := skip;
       JwtAudience := Audience (Auth env);
       JwtIssuer := Issuer (Auth env);
       Wellknown := WellKnown (Auth env);
       NodePublicKey := None; NodeIssuer := []; NodeAudience := [] |} in
  if String.eqb (Middleware (Auth env)) "local"
     || String.eqb (Middleware (Auth env)) "opa"
  then
    match KeyPairs (NodeInfo core) with
    | [] => Panic
    | keyPair :: _ =>
        Ok (JWTHandler
              {| Skipper := Skipper config;
                 JwtAudience := JwtAudience config;
                 JwtIssuer := JwtIssuer config;
                 Wellknown := Wellknown config;
                 NodePublicKey := Some (PublicKey keyPair);
                 NodeIssuer := ["node:" +:+ NodeID (NodeInfo core)];
                 NodeAudience := ["node:" +:+ NodeID (NodeInfo core)] |})
    end
  else Ok (JWTHandler config).

Definition setupLogger (skip : string → bool) : MiddlewareFunc := LoggerFilter skip.

Definition setupCors : MiddlewareFunc :=
  CORSWithConfig ["https://api.mimiro.io"; "https://platform.mimiro.io"]
                 ["Origin"; "Content-Type"; "Accept"].

Definition setupRecovery : MiddlewareFunc := RecoverWithConfig.

(** An [echo.HandlerFunc]: it acts on the state and returns an error or
    nil. *)
Definition HandlerFunc : Type := Ctx → W → option HErr * W.

(** An authorizer, its logger fixed: from the scopes to a wrapper of
    handlers. *)
Definition Authorizer : Type := list string → HandlerFunc → HandlerFunc.

(** The authorizer [NewAuthorizer] builds for [local] and [opa]: both
    authorizers are applied to the next handler and run, one after the
    other. *)
Definition bothAuthorizers (acl opa : Authorizer) : Authorizer :=
  λ scopes next c w,
    let '(err1, w1) := acl scopes next c w in
    let '(err2, w2) := opa scopes next c w1 in
    if bool_decide (err1 ≠ None) && bool_decide (err2 ≠ None)
    then (Some (NewHTTPError 403 "user does not have permission"), w2)
    else (None, w2).

(** [NewAuthorizer]; [acl] stands for [middlewares.LocalAuthorizer(core)],
    [opa] and [noop] for [middlewares.OpaAuthorizer] and
    [middlewares.NoOpAuthorizer].  [log.Panicf] panics. *)
Definition NewAuthorizer (acl opa noop : Authorizer) (env : Env)
    : result Authorizer :=
  if String.eqb (Middleware (Auth env)) "local"
     || String.eqb (Middleware (Auth env)) "opa"
  then
    if String.eqb (AdminUserName env) "" || String.eqb (AdminPassword env) ""
    then Panic
    else Ok (bothAuthorizers acl opa)
  else Ok noop.

(** [Middleware]; the handler, kept for its logger, is left out. *)
Record MiddlewareT : Type := mkMiddleware {
  mwLogger : MiddlewareFunc;
  mwCors : MiddlewareFunc;
  mwJwt : MiddlewareFunc;
  mwRecover : MiddlewareFunc;
  mwAuthorizer : Authorizer;
  mwEnv : Env;
}.

(** [configure]: [e.Use] adds to the end of the chain of [e]. *)
Definition configure (middleware : MiddlewareT) (e : list MiddlewareFunc)
    : list MiddlewareFunc :=
  let e := e ++ [mwLogger middleware] in
  let e :=
    if String.eqb (Middleware (Auth (mwEnv middleware))) "noop" then e
    else (e ++ [mwCors middleware]) ++ [mwJwt middleware] in
  e ++ [mwRecover middleware].

(** [NewMiddleware], up to the start hook it registers, which is
    [configure] on the value returned. *)
Definition NewMiddleware (mimiroIcon favIcon : string) (env : Env)
    (auth : Authorizer) (core : ServiceCore) : result MiddlewareT :=
  let skip := skipper mimiroIcon favIcon in
  match setupJWT env core skip with
  | Ok jwt =>
      Ok {| mwLogger := setupLogger skip;
            mwCors := setupCors;
            mwJwt := jwt;
            mwRecover := setupRecovery;
            mwAuthorizer := auth;
            mwEnv := env |}
  | Err err => Err err
  | Panic => Panic
  end.

End Web.

(** An environment and a node for the examples. *)
Definition demoEnv (middleware user password : string) : Env :=
  {| Auth := {| Middleware := middleware; Audience := ["datahub"];
                Issuer := ["https://issuer"]; WellKnown := "https://issuer/jwks" |};
     AdminUserName := user; AdminPassword := password |}.

Definition demoNode (keys : list N) : @ServiceCore N :=
  {| NodeInfo := {| NodeID := "n1"; KeyPairs := mkKeyPair <$> keys |} |}.

(* ================================================================== *)
(** * The instance (package [datahub]) *)

(** How a constructor call ends when its error type is left open. *)
Inductive outcome (E A : Type) : Type :=
  | Done (a : A)
  | Failed (err : E)
  | Panicked.
Arguments Done {E A} a.
Arguments Failed {E A} err.
Arguments Panicked {E A}.

(** The parts [NewDatahubInstance] builds, by the call that builds
    them. *)
Inductive part : Type :=
  | PLogger | PMetricsClient | PEventBus | PStore | PDsManager
  | PProviderManager | PSecurityServiceCore | PTokenProviders | PRunner
  | PScheduler | PContentService | PAuthorizer | PMemoryReporter
  | PBackupManager | PGarbageCollector | PBadgerAccess | PUpdater
  | PWebService.

Global Instance part_eq_dec : EqDecision part.
Proof. solve_decision. Defined.

(** What the constructors that return an error come back with, and
    whether [web.NewAuthorizer] panics. *)
Record constructors (E : Type) : Type := mkConstructors {
  metricsErr : option E;
  busErr : option E;
  authorizerPanics : bool;
  backupErr : option E;
  webErr : option E;
}.
Arguments metricsErr {E} _.
Arguments busErr {E} _.
Arguments authorizerPanics {E} _.
Arguments backupErr {E} _.
Arguments webErr {E} _.

(** [NewDatahubInstance]: the constructor calls made, in order, and
    what is returned; [Done] stands for [(dhi, nil)]. *)
Definition NewDatahubInstance {E} (c : constructors E) : list part * outcome E unit :=
  let made := [PLogger; PMetricsClient] in
  let err := metricsErr c in
  match err with
  | Some err => (made, Failed err)
  | None =>
      let made := made ++ [PEventBus] in
      let err := busErr c in
      let made := made ++ [PStore; PDsManager; PProviderManager;
                           PSecurityServiceCore; PTokenProviders; PRunner;
                           PScheduler; PContentService; PAuthorizer] in
      if authorizerPanics c then (made, Panicked)
      else
        let made := made ++ [PMemoryReporter; PBackupManager] in
        let err := backupErr c in
        match err with
        | Some err => (made, Failed err)
        | None =>
            let made := made ++ [PGarbageCollector; PBadgerAccess; PUpdater;
                                 PWebService] in
            let err := webErr c in
            (made, Done tt)
        end
  end.

(* ================================================================== *)
(** * Properties *)

Section Facts.
Context {Doc : Type}.
Variable Unmarshal : bytes → option Doc.
Variable SeekEntity : N → bytes.
Variable SeekEntityChanges : N → N → bytes.
Variable range : RangeOrder.

(** ** Loops and traces *)

Lemma foldM_lift {A B} (f : A → B → result A) (a : A) (l : list B) :
  foldM (λ a x, lift (f a x)) a l = ([], foldR f a l).
Proof.
  revert a. induction l as [|x l IH]; intros a; [done|].
  cbn. destruct (f a x) as [a'| |]; cbn; [|done..].
  by rewrite IH.
Qed.

(** ** The locator pass *)

Lemma locatorStep_commit l scope st item st' :
  locatorStep l scope st item = Ok st' →
  commit st' = record (badger l) scope (commit st) item.
Proof.
  unfold locatorStep, record, survives.
  destruct (datasetIDOfKey item.1) as [cur|]; [|done].
  destruct (IsDatasetDeleted (badger l) cur); cbn; [by intros [= <-]|].
  destruct (datasetIncluded scope cur); cbn; [|by intros [= <-]].
  intros [= <-]. unfold commit; cbn.
  destruct (N.eqb_spec (previousDatasetID st) 0) as [Hp|Hp],
           (N.eqb_spec cur 0) as [Hc|Hc]; cbn; try done.
  - destruct (N.eqb_spec cur (previousDatasetID st)) as [He|He]; cbn; [congruence|done].
  - destruct (N.eqb_spec cur (previousDatasetID st)) as [He|He]; cbn; [|done].
    rewrite He. by rewrite insert_insert_eq.
Qed.

Lemma locatorStep_Panic l scope st item :
  datasetIDOfKey item.1 = None → locatorStep l scope st item = Panic.
Proof. unfold locatorStep. by intros ->. Qed.

Lemma locatorStep_Some l scope st item :
  is_Some (datasetIDOfKey item.1) → ∃ st', locatorStep l scope st item = Ok st'.
Proof.
  unfold locatorStep. intros [cur ->].
  destruct (_ || _); eauto.
Qed.

Lemma foldR_locator_Ok l scope items : ∀ st,
  Forall (λ it : Item, is_Some (datasetIDOfKey it.1)) items →
  ∃ st', foldR (locatorStep l scope) st items = Ok st'
         ∧ commit st' = foldl (record (badger l) scope) (commit st) items.
Proof.
  induction items as [|it items IH]; intros st Hall; [by exists st|].
  apply Forall_cons in Hall as [Hit Hall].
  destruct (locatorStep_Some l scope st it Hit) as [st1 Hst1].
  destruct (IH st1 Hall) as (st' & Hrun & Hcommit).
  exists st'. cbn. rewrite Hst1. split; [done|].
  by rewrite Hcommit, (locatorStep_commit _ _ _ _ _ Hst1).
Qed.

Lemma foldR_locator_Panic l scope items : ∀ st,
  Exists (λ it : Item, datasetIDOfKey it.1 = None) items →
  foldR (locatorStep l scope) st items = Panic.
Proof.
  induction items as [|it items IH]; intros st Hex; [by apply Exists_nil in Hex|].
  cbn. destruct (datasetIDOfKey it.1) as [cur|] eqn:Hcur.
  - apply Exists_cons in Hex as [Hit|Hex]; [congruence|].
    destruct (locatorStep_Some l scope st it) as [st1 ->]; [by rewrite Hcur|].
    by apply IH.
  - by rewrite locatorStep_Panic.
Qed.

(** The pass makes no call of its own into the engine, and leaves
    either the committed accumulator or, on a key too short to hold
    a dataset id, a panic. *)
Lemma scanLocator_eq l rtxn e scope :
  scanLocator SeekEntity l rtxn e scope =
  ([], if decide (Forall (λ it : Item, is_Some (datasetIDOfKey it.1))
                         (iterate rtxn (SeekEntity e)))
       then Ok (latestPerDataset (badger l) scope (iterate rtxn (SeekEntity e)))
       else Panic).
Proof.
  unfold scanLocator. rewrite foldM_lift.
  case_decide as Hall.
  - destruct (foldR_locator_Ok l scope _ scanInit Hall) as (st' & -> & Hc).
    cbn. f_equal. f_equal. apply Hc.
  - rewrite foldR_locator_Panic; [done|].
    apply not_Forall_Exists in Hall; [|apply _].
    eapply Exists_impl; [done|]. cbn. intros it Hit.
    by destruct (datasetIDOfKey it.1); [destruct Hit; eauto|].
Qed.

Lemma valuesOf_snoc d items (it : Item) :
  valuesOf d (items ++ [it]) =
  valuesOf d items ++ (if decide (datasetIDOfKey it.1 = Some d) then [it.2] else []).
Proof.
  unfold valuesOf. rewrite filter_app, fmap_app. f_equal.
  case_decide; [by rewrite filter_cons_True|by rewrite filter_cons_False].
Qed.

(** The accumulator holds, for every dataset other than 0 that passes
    the test, the value of its last entry, and nothing else. *)
Lemma latestPerDataset_lookup s scope items d :
  latestPerDataset s scope items !! d =
  if survives s scope d && negb (d =? 0)%N then last (valuesOf d items) else None.
Proof.
  unfold latestPerDataset.
  induction items as [|it items IH] using rev_ind.
  { cbn. rewrite lookup_empty. by destruct (_ && _). }
  rewrite foldl_snoc, valuesOf_snoc. unfold record at 1.
  destruct (datasetIDOfKey it.1) as [cur|] eqn:Hcur.
  - destruct (decide (cur = d)) as [->|Hne].
    + rewrite decide_True by done. rewrite last_snoc.
      destruct (survives s scope d && negb (d =? 0)%N) eqn:Hs.
      * by rewrite lookup_insert_eq.
      * by rewrite IH.
    + rewrite decide_False by congruence. rewrite app_nil_r.
      destruct (survives s scope cur && negb (cur =? 0)%N);
        [rewrite lookup_insert_ne by done|]; apply IH.
  - rewrite decide_False by done. rewrite app_nil_r. apply IH.
Qed.

(** ** The change log *)

Lemma foldM_decode (items : list Item) : ∀ acc : list Doc,
  foldM (λ result (item : Item),
           match Unmarshal item.2 with
           | None => lift (Err Corrupt)
           | Some entity => mret (result ++ [entity])
           end) acc items
  = ([], match mapM Unmarshal items.*2 with
         | Some docs => Ok (acc ++ docs)
         | None => Err Corrupt
         end).
Proof.
  induction items as [|it items IH]; intros acc; cbn.
  { by rewrite app_nil_r. }
  destruct (Unmarshal it.2) as [entity|]; cbn; [|done].
  rewrite IH. destruct (mapM Unmarshal items.*2); cbn; [|done].
  by rewrite <-app_assoc.
Qed.

(** [loadChanges] opens one iterator, closes it again on every path,
    and decodes the entries under the prefix in the order visited. *)
Lemma loadChanges_eq rtxn e d :
  loadChanges Unmarshal SeekEntityChanges rtxn e d =
  ([IterOpen (SeekEntityChanges d e); IterClose (SeekEntityChanges d e)],
   decodeAll Unmarshal (iterate rtxn (SeekEntityChanges d e)).*2).
Proof.
  unfold loadChanges, decodeAll. rewrite foldM_decode.
  by destruct (mapM Unmarshal _).
Qed.

(** ** The loop over the accumulator *)

Lemma bind_snd {A B} (m : M A) (k : A → M B) :
  (mbind k m).2 =
  match m.2 with Ok a => (k a).2 | Err e => Err e | Panic => Panic end.
Proof. destruct m as [es [a| |]]; cbn; [|done..]. by destruct (k a). Qed.

Lemma bind_fst {A B} (m : M A) (k : A → M B) :
  (mbind k m).1 =
  m.1 ++ match m.2 with Ok a => (k a).1 | _ => [] end.
Proof.
  destruct m as [es [a| |]]; cbn; [|by rewrite app_nil_r..]. by destruct (k a).
Qed.

Lemma assembleStep_snd l rtxn e m kv :
  (assembleStep Unmarshal SeekEntityChanges l rtxn e m kv).2 =
  insertEntry Unmarshal SeekEntityChanges (badger l) rtxn e m kv.
Proof.
  unfold assembleStep, insertEntry, entryOf. destruct kv as [d b].
  cbn [fst snd].
  destruct (LookupDatasetName (badger l) d) as [n|]; [|done].
  destruct (Unmarshal b) as [entity|]; [|done].
  rewrite bind_snd, loadChanges_eq. cbn [fst snd].
  by destruct (decodeAll _ _).
Qed.

Lemma foldM_snd {A B} (f : A → B → M A) (g : A → B → result A) l :
  (∀ a x, (f a x).2 = g a x) → ∀ a, (foldM f a l).2 = foldR g a l.
Proof.
  intros Hfg. induction l as [|x l IH]; intros a; [done|].
  cbn [foldM foldR]. rewrite bind_snd, Hfg.
  destruct (g a x); [apply IH|done..].
Qed.

Lemma entryOf_cases s rtxn e kv :
  entryOf Unmarshal SeekEntityChanges s rtxn e kv = Err Corrupt
  ∨ ∃ k v, entryOf Unmarshal SeekEntityChanges s rtxn e kv = Ok (k, v).
Proof.
  unfold entryOf, decodeAll.
  destruct (LookupDatasetName s kv.1); [|by eauto].
  destruct (Unmarshal kv.2); [|by left].
  destruct (mapM Unmarshal _); eauto.
Qed.

Lemma entryOf_key s rtxn e kv k v :
  entryOf Unmarshal SeekEntityChanges s rtxn e kv = Ok (k, v) → k = resultKey s kv.1.
Proof.
  unfold entryOf, resultKey.
  destruct (LookupDatasetName s kv.1); [|by intros [= <- _]].
  destruct (Unmarshal kv.2); [|done].
  by destruct (decodeAll _ _); intros [= <- _].
Qed.

(** One failing entry fails the whole loop, wherever it stands. *)
Lemma foldR_insertEntry_Err s rtxn e L : ∀ m,
  Exists (λ kv, entryOf Unmarshal SeekEntityChanges s rtxn e kv = Err Corrupt) L →
  foldR (insertEntry Unmarshal SeekEntityChanges s rtxn e) m L = Err Corrupt.
Proof.
  induction L as [|kv L IH]; intros m Hex; [by apply Exists_nil in Hex|].
  cbn. unfold insertEntry at 1.
  destruct (entryOf_cases s rtxn e kv) as [->|(k & v & Hkv)]; [done|].
  rewrite Hkv. apply IH. apply Exists_cons in Hex as [Hbad|Hex]; [congruence|done].
Qed.

(** When every entry is fine the loop inserts them one after another. *)
Lemma foldR_insertEntry_Ok s rtxn e L : ∀ m,
  Forall (λ kv, ∃ k v, entryOf Unmarshal SeekEntityChanges s rtxn e kv = Ok (k, v)) L →
  ∃ m', foldR (insertEntry Unmarshal SeekEntityChanges s rtxn e) m L = Ok m'
   ∧ (∀ k, k ∈ dom m' ↔ k ∈ dom m ∨ ∃ kv, kv ∈ L ∧ k = resultKey s kv.1)
   ∧ (∀ k v, m' !! k = Some v →
        m !! k = Some v
        ∨ ∃ kv, kv ∈ L ∧ entryOf Unmarshal SeekEntityChanges s rtxn e kv = Ok (k, v))
   ∧ (∀ kv k v, kv ∈ L →
        entryOf Unmarshal SeekEntityChanges s rtxn e kv = Ok (k, v) →
        (∀ kv', kv' ∈ L → resultKey s kv'.1 = k → kv' = kv) →
        m' !! k = Some v).
Proof.
  induction L as [|kv L IH]; intros m Hall.
  { exists m. split; [done|]. split; [|split].
    - intros k. split; [by left|]. intros [?|(kv & Hkv & _)]; [done|].
      by apply elem_of_nil in Hkv.
    - by left.
    - intros kv k v Hkv. by apply elem_of_nil in Hkv. }
  apply Forall_cons in Hall as [(k0 & v0 & Hkv0) Hall].
  destruct (IH (<[k0 := v0]> m) Hall) as (m' & Hrun & Hdom & Hsub & Huniq).
  exists m'. split; [|split; [|split]].
  - cbn. unfold insertEntry at 1. by rewrite Hkv0.
  - intros k. rewrite Hdom, dom_insert, elem_of_union, elem_of_singleton.
    pose proof (entryOf_key _ _ _ _ _ _ Hkv0) as Hk0.
    split.
    + intros [[->|?]|(kv' & Hin & ->)]; [right|by left|right].
      * exists kv. split; [apply elem_of_cons; by left|done].
      * exists kv'. split; [apply elem_of_cons; by right|done].
    + intros [?|(kv' & [->|Hin]%elem_of_cons & ->)].
      * left. by right.
      * left. by left.
      * right. eauto.
  - intros k v [Hm|(kv' & Hin & Hkv')]%Hsub.
    + destruct (decide (k0 = k)) as [->|Hne].
      * rewrite lookup_insert_eq in Hm. injection Hm as <-.
        right. exists kv. split; [apply elem_of_cons; by left|done].
      * rewrite lookup_insert_ne in Hm by done. by left.
    + right. exists kv'. split; [apply elem_of_cons; by right|done].
  - intros kv1 k v [->|Hin]%elem_of_cons Hkv1 Hu.
    + rewrite Hkv0 in Hkv1. injection Hkv1 as <- <-.
      destruct (m' !! k0) as [v'|] eqn:Hm'.
      * apply Hsub in Hm' as [Hm'|(kv' & Hin' & Hkv')].
        { by rewrite lookup_insert_eq in Hm'. }
        assert (kv' = kv) as ->.
        { apply Hu; [apply elem_of_cons; by right|].
          symmetry. by eapply entryOf_key. }
        congruence.
      * assert (k0 ∈ dom m') as Hd; [|by apply not_elem_of_dom in Hm'].
        apply Hdom. left. rewrite dom_insert, elem_of_union, elem_of_singleton. by left.
    + apply (Huniq kv1 k v Hin Hkv1).
      intros kv' Hin' Hk. apply Hu; [apply elem_of_cons; by right|done].
Qed.

Lemma foldR_insertEntry_inv s rtxn e L m m' :
  foldR (insertEntry Unmarshal SeekEntityChanges s rtxn e) m L = Ok m' →
  Forall (λ kv, ∃ k v, entryOf Unmarshal SeekEntityChanges s rtxn e kv = Ok (k, v)) L.
Proof.
  intros Hrun. apply Forall_forall. intros kv Hin.
  destruct (entryOf_cases s rtxn e kv) as [Hbad|?]; [|done].
  rewrite foldR_insertEntry_Err in Hrun; [done|].
  apply Exists_exists. eauto.
Qed.

(** ** Byte order and prefix scans *)

Lemma to_N_inj (a b : byte) : Byte.to_N a = Byte.to_N b → a = b.
Proof.
  intros Hab. pose proof (Byte.of_to_N a) as Ha.
  rewrite Hab, Byte.of_to_N in Ha. by injection Ha.
Qed.

Lemma bytesLt_cons (x y : byte) (a b : bytes) :
  bytesLt (x :: a) (y :: b) = true ↔
  (Byte.to_N x < Byte.to_N y)%N ∨ (x = y ∧ bytesLt a b = true).
Proof.
  cbn [bytesLt].
  destruct (N.ltb_spec (Byte.to_N x) (Byte.to_N y)) as [Hlt|Hge].
  { split; [by left|done]. }
  destruct (N.ltb_spec (Byte.to_N y) (Byte.to_N x)) as [Hgt|Hle].
  { split; [done|]. intros [?|[-> _]]; lia. }
  assert (x = y) as -> by (apply to_N_inj; lia).
  split; [by right|]. intros [?|[_ ?]]; [lia|done].
Qed.

Lemma hasPrefix_cons (x y : byte) (k p : bytes) :
  hasPrefix (x :: k) (y :: p) = true ↔ x = y ∧ hasPrefix k p = true.
Proof.
  cbn [hasPrefix]. rewrite andb_true_iff. split.
  - intros [->%Byte.byte_dec_bl ?]. done.
  - intros [-> ?]. split; [by apply Byte.byte_dec_lb|done].
Qed.

Lemma bytesLt_trans (a b c : bytes) :
  bytesLt a b = true → bytesLt b c = true → bytesLt a c = true.
Proof.
  revert b c. induction a as [|x a IH]; intros [|y b] [|z c]; try done.
  rewrite !bytesLt_cons. intros [Hxy|[-> Hab]] [Hyz|[-> Hbc]].
  - left. lia.
  - by left.
  - by left.
  - right. split; [done|]. by eapply IH.
Qed.

(** A key that carries the prefix is not below it. *)
Lemma hasPrefix_not_Lt (k p : bytes) :
  hasPrefix k p = true → bytesLt k p = false.
Proof.
  revert k. induction p as [|y p IH]; intros [|x k]; try done.
  intros [-> Hkp]%hasPrefix_cons. apply not_true_iff_false.
  rewrite bytesLt_cons. intros [?|[_ Hlt]]; [lia|].
  by rewrite IH in Hlt.
Qed.

(** Past the first key that is neither below the prefix nor carries
    it, no key carries it. *)
Lemma hasPrefix_past (p k k' : bytes) :
  bytesLt k k' = true → bytesLt k p = false → hasPrefix k p = false →
  hasPrefix k' p = false.
Proof.
  revert k k'. induction p as [|y p IH]; intros [|x k] [|z k']; try done.
  rewrite bytesLt_cons. intros Hkk' Hkp Hpre.
  apply not_true_iff_false. rewrite hasPrefix_cons. intros [-> Hk'p].
  apply not_true_iff_false in Hkp, Hpre.
  rewrite bytesLt_cons in Hkp. rewrite hasPrefix_cons in Hpre.
  destruct Hkk' as [Hlt|[-> Hlt]].
  - destruct (N.lt_trichotomy (Byte.to_N x) (Byte.to_N y)) as [?|[Heq|?]].
    + apply Hkp. by left.
    + apply to_N_inj in Heq. lia.
    + lia.
  - assert (hasPrefix k' p = false) as Hno; [|congruence].
    apply (IH k k' Hlt).
    + apply not_true_iff_false. intros ?. apply Hkp. by right.
    + apply not_true_iff_false. intros ?. by apply Hpre.
Qed.

Lemma Seek_not_below p (items : list Item) :
  Forall (λ it : Item, bytesLt it.1 p = false) items → Seek p items = items.
Proof. destruct 1 as [|it items Hit _]; [done|]. cbn. by rewrite Hit. Qed.

(** On keys in ascending order the iterator visits exactly the items
    whose key carries the prefix. *)
Lemma iterate_filter rtxn p :
  keysAscending (txnView rtxn) →
  iterate rtxn p = filter (λ it : Item, hasPrefix it.1 p = true) (dbItems (txnView rtxn)).
Proof.
  unfold keysAscending, iterate.
  induction 1 as [|it items Hsorted IH Hhead]; [done|].
  cbn [Seek]. destruct (bytesLt it.1 p) eqn:Hlt.
  { rewrite filter_cons_False; [done|].
    intros Hpre%hasPrefix_not_Lt. congruence. }
  cbn [whileValidForPrefix].
  destruct (hasPrefix it.1 p) eqn:Hpre.
  - rewrite filter_cons_True by done. f_equal.
    rewrite <-IH. f_equal. symmetry. apply Seek_not_below.
    eapply Forall_impl; [exact Hhead|]. cbn. intros it' Hlt'.
    apply not_true_iff_false. intros Hbelow.
    by rewrite (bytesLt_trans _ _ _ Hlt' Hbelow) in Hlt.
  - rewrite filter_cons_False by congruence.
    clear IH Hsorted. induction Hhead as [|it' items Hit' _ IH']; [done|].
    rewrite filter_cons_False; [apply IH'|].
    by rewrite (hasPrefix_past p it.1 it'.1).
Qed.

(** ** [loadDetails] and [Details] as a whole *)

Lemma loadDetails_snd l rtxn e scope :
  (loadDetails Unmarshal SeekEntity SeekEntityChanges range l rtxn e scope).2 =
  if decide (decodable (iterate rtxn (SeekEntity e)))
  then foldR (insertEntry Unmarshal SeekEntityChanges (badger l) rtxn e) ∅
             (range (latestPerDataset (badger l) scope (iterate rtxn (SeekEntity e))))
  else Panic.
Proof.
  unfold loadDetails, defer. cbn [snd]. rewrite bind_snd. cbn [emit snd].
  rewrite bind_snd, scanLocator_eq. cbn [snd]. unfold decodable.
  case_decide; [|done].
  apply foldM_snd. intros m kv. apply assembleStep_snd.
Qed.

Lemma DetailsDuring_snd l now id names :
  (DetailsDuring Unmarshal SeekEntity SeekEntityChanges range l now id names).2 =
  match asCURIE l id with
  | Ok curie =>
      match InternalIDForCURIE (readTxn l) curie with
      | Ok e => (loadDetails Unmarshal SeekEntity SeekEntityChanges range now (readTxn l) e
                   (LookupDatasetIDs (badger now) names)).2
      | Err err => Err err
      | Panic => Panic
      end
  | Err err => Err err
  | Panic => Panic
  end.
Proof.
  unfold DetailsDuring, readTxn. rewrite bind_snd. cbn [lift snd].
  destruct (asCURIE l id) as [curie| |]; [|done..].
  rewrite bind_snd. cbn [emit snd defer]. rewrite bind_snd. cbn [lift snd].
  by destruct (InternalIDForCURIE _ curie).
Qed.

Lemma InternalIDForCURIE_entityOf l id curie :
  asCURIE l id = Ok curie →
  InternalIDForCURIE (readTxn l) curie =
  match entityOf l id with Some e => Ok e | None => Err NotFound end.
Proof. unfold InternalIDForCURIE, entityOf, readTxn. cbn. by intros ->. Qed.

Lemma Details_entityOf l id names e :
  entityOf l id = Some e →
  (Details Unmarshal SeekEntity SeekEntityChanges range l id names).2 =
  (loadDetails Unmarshal SeekEntity SeekEntityChanges range l (readTxn l) e
     (LookupDatasetIDs (badger l) names)).2.
Proof.
  intros He. unfold Details. rewrite DetailsDuring_snd.
  destruct (asCURIE l id) as [curie| |] eqn:Hc;
    [|unfold entityOf in He; by rewrite Hc in He..].
  by rewrite (InternalIDForCURIE_entityOf _ _ _ Hc), He.
Qed.

(** A call that returns a map resolved the entity, decoded every
    locator key and assembled the map from the accumulator. *)
Lemma Details_Ok_inv l id names m :
  (Details Unmarshal SeekEntity SeekEntityChanges range l id names).2 = Ok m →
  ∃ e, entityOf l id = Some e
    ∧ decodable (iterate (readTxn l) (SeekEntity e))
    ∧ foldR (insertEntry Unmarshal SeekEntityChanges (badger l) (readTxn l) e) ∅
        (range (latestPerDataset (badger l) (LookupDatasetIDs (badger l) names)
                  (iterate (readTxn l) (SeekEntity e)))) = Ok m.
Proof.
  unfold Details. rewrite DetailsDuring_snd.
  destruct (asCURIE l id) as [curie| |] eqn:Hc; [|done..].
  rewrite (InternalIDForCURIE_entityOf _ _ _ Hc).
  destruct (entityOf l id) as [e|]; [|done].
  rewrite loadDetails_snd. case_decide; [|done]. eauto.
Qed.

Lemma elem_of_range (parts : gmap N bytes) (kv : N * bytes) :
  kv ∈ range parts ↔ parts !! kv.1 = Some kv.2.
Proof.
  rewrite (rangeOf_perm range parts). destruct kv as [d b].
  apply elem_of_map_to_list.
Qed.

(** What the loop over the accumulator leaves when it returns a map. *)
Lemma assemble_Ok s rtxn e (parts : gmap N bytes) m :
  foldR (insertEntry Unmarshal SeekEntityChanges s rtxn e) ∅ (range parts) = Ok m →
  (∀ k, k ∈ dom m ↔ ∃ d, d ∈ dom parts ∧ k = resultKey s d)
  ∧ (∀ k v, m !! k = Some v →
       ∃ d b, parts !! d = Some b
              ∧ entryOf Unmarshal SeekEntityChanges s rtxn e (d, b) = Ok (k, v))
  ∧ (∀ d b k v, parts !! d = Some b →
       entryOf Unmarshal SeekEntityChanges s rtxn e (d, b) = Ok (k, v) →
       (∀ d', d' ∈ dom parts → resultKey s d' = k → d' = d) →
       m !! k = Some v).
Proof.
  intros Hrun.
  pose proof (foldR_insertEntry_inv _ _ _ _ _ _ Hrun) as Hall.
  destruct (foldR_insertEntry_Ok s rtxn e _ ∅ Hall) as (m' & Hrun' & Hdom & Hsub & Huniq).
  rewrite Hrun in Hrun'. injection Hrun' as <-.
  split; [|split].
  - intros k. rewrite Hdom, dom_empty, elem_of_empty. split.
    + intros [[]|([d b] & Hin%elem_of_range & ->)].
      exists d. split; [|done]. apply elem_of_dom. by exists b.
    + intros (d & [b Hb]%elem_of_dom & ->). right.
      exists (d, b). split; [by apply elem_of_range|done].
  - intros k v [Hm|([d b] & Hin%elem_of_range & Hkv)]%Hsub.
    + by rewrite lookup_empty in Hm.
    + by exists d, b.
  - intros d b k v Hb Hkv Hu. apply (Huniq (d, b) k v); [by apply elem_of_range|done|].
    intros [d' b'] Hin%elem_of_range Hk. cbn in *.
    assert (d' = d) as ->.
    { apply Hu; [|done]. apply elem_of_dom. by exists b'. }
    congruence.
Qed.

Lemma assemble_total s rtxn e (parts : gmap N bytes) :
  (∀ d b, parts !! d = Some b →
     ∃ k v, entryOf Unmarshal SeekEntityChanges s rtxn e (d, b) = Ok (k, v)) →
  ∃ m, foldR (insertEntry Unmarshal SeekEntityChanges s rtxn e) ∅ (range parts) = Ok m.
Proof.
  intros Hall.
  destruct (foldR_insertEntry_Ok s rtxn e (range parts) ∅) as (m & Hm & _).
  - apply Forall_forall. intros [d b] Hin%elem_of_range. by apply Hall.
  - by exists m.
Qed.


(** The accumulator of a call, by dataset. *)
Lemma accumulator_dom s scope items d :
  d ∈ dom (latestPerDataset s scope items) ↔
  survives s scope d = true ∧ d ≠ 0%N
  ∧ ∃ item : Item, item ∈ items ∧ datasetIDOfKey item.1 = Some d.
Proof.
  rewrite elem_of_dom, latestPerDataset_lookup.
  destruct (survives s scope d); cbn; [|split; [by intros []|by intros []]].
  destruct (N.eqb_spec d 0) as [->|Hne]; cbn.
  { split; [by intros []|by intros (_ & ? & _)]. }
  rewrite last_is_Some. unfold valuesOf. split.
  - intros Hne'. split; [done|]. split; [done|].
    destruct (filter _ items) as [|it its] eqn:Hf; [done|].
    assert (it ∈ filter (λ it : Item, datasetIDOfKey it.1 = Some d) items) as Hin.
    { rewrite Hf. apply elem_of_cons. by left. }
    apply list_elem_of_filter in Hin as [? ?]. eauto.
  - intros (_ & _ & it & Hin & Hd) Hnil.
    apply fmap_nil_inv in Hnil.
    eapply filter_nil_not_elem_of; [exact Hnil| |exact Hin]. done.
Qed.

(** ** Traces *)

Lemma quiet_nil : quiet [].
Proof. split; [constructor|done]. Qed.

Lemma quiet_app t1 t2 : quiet t1 → quiet t2 → quiet (t1 ++ t2).
Proof.
  intros [Hr1 He1] [Hr2 He2]. split; [by apply Forall_app|].
  intros en. unfold engineRun in *. by rewrite foldl_app, He1, He2.
Qed.

Lemma quiet_iterator p t : quiet t → quiet (IterOpen p :: t ++ [IterClose p]).
Proof.
  intros [Hr He]. split.
  - constructor; [done|]. apply Forall_app. split; [done|]. by repeat constructor.
  - intros en. unfold engineRun in *. cbn [foldl]. rewrite foldl_app, He.
    by destruct en.
Qed.

Lemma foldM_quiet {A B} (f : A → B → M A) l :
  (∀ a x, quiet (f a x).1) → ∀ a, quiet (foldM f a l).1.
Proof.
  intros Hf. induction l as [|x l IH]; intros a; [apply quiet_nil|].
  cbn [foldM]. rewrite bind_fst. apply quiet_app; [apply Hf|].
  destruct (f a x).2; [apply IH|apply quiet_nil..].
Qed.

Lemma assembleStep_quiet l rtxn e m kv :
  quiet (assembleStep Unmarshal SeekEntityChanges l rtxn e m kv).1.
Proof.
  unfold assembleStep. destruct kv as [d b].
  destruct (LookupDatasetName (badger l) d); [|apply quiet_nil].
  destruct (Unmarshal b); [|apply quiet_nil].
  rewrite bind_fst, loadChanges_eq. cbn [fst snd].
  apply quiet_app; [apply (quiet_iterator _ []), quiet_nil|].
  destruct (decodeAll _ _); apply quiet_nil.
Qed.

Lemma loadDetails_fst l rtxn e scope :
  ∃ t, quiet t ∧
    (loadDetails Unmarshal SeekEntity SeekEntityChanges range l rtxn e scope).1 =
    IterOpen (SeekEntity e) :: t ++ [IterClose (SeekEntity e)].
Proof.
  unfold loadDetails. rewrite bind_fst. cbn [emit defer fst snd].
  rewrite bind_fst, scanLocator_eq. cbn [fst snd].
  eexists. split; [|reflexivity].
  case_decide; [|apply quiet_nil].
  apply foldM_quiet. intros m kv. apply assembleStep_quiet.
Qed.

Lemma loadDetails_quiet l rtxn e scope :
  quiet (loadDetails Unmarshal SeekEntity SeekEntityChanges range l rtxn e scope).1.
Proof.
  destruct (loadDetails_fst l rtxn e scope) as (t & Ht & ->).
  by apply quiet_iterator.
Qed.

Lemma DetailsDuring_fst l now id names :
  (DetailsDuring Unmarshal SeekEntity SeekEntityChanges range l now id names).1 =
  match asCURIE l id with
  | Ok curie =>
      TxnOpen false ::
      match InternalIDForCURIE (readTxn l) curie with
      | Ok e => (loadDetails Unmarshal SeekEntity SeekEntityChanges range now (readTxn l) e
                   (LookupDatasetIDs (badger now) names)).1
      | _ => []
      end ++ [TxnDiscard]
  | _ => []
  end.
Proof.
  unfold DetailsDuring, readTxn. rewrite bind_fst. cbn [lift fst snd app].
  destruct (asCURIE l id) as [curie| |]; [|done..].
  rewrite bind_fst. cbn [emit fst snd defer app]. rewrite bind_fst. cbn [lift fst snd app].
  by destruct (InternalIDForCURIE _ curie).
Qed.

(** C8. [Details] mutates no persistent state on any path.  Its trace
    holds no write and no commit; when a transaction was opened it was
    opened for reading and [Discard] is the last call made, on the
    error paths and the panic path as on the normal one; and an engine
    at rest before the call is at rest on the same pairs after it. *)
Theorem Details_mutates_nothing (l : Lookup) (id : string)
    (datasetNames : list string) (items : list Item) :
  let trace := (Details Unmarshal SeekEntity SeekEntityChanges range l id datasetNames).1 in
  Forall readOnly trace
  ∧ (trace = [] ∨ ∃ t, quiet t ∧ trace = TxnOpen false :: t ++ [TxnDiscard])
  ∧ engineRun (atRest items) trace = atRest items.
Proof.
  cbn zeta. unfold Details. rewrite DetailsDuring_fst.
  destruct (asCURIE l id) as [curie| |];
    [|by split; [constructor|split; [left|]]..].
  assert (quiet match InternalIDForCURIE (readTxn l) curie with
                | Ok e => (loadDetails Unmarshal SeekEntity SeekEntityChanges range l
                             (readTxn l) e (LookupDatasetIDs (badger l) datasetNames)).1
                | _ => []
                end) as Hq.
  { destruct (InternalIDForCURIE _ curie); [apply loadDetails_quiet|apply quiet_nil..]. }
  split; [|split].
  - constructor; [done|]. apply Forall_app. split; [apply Hq|by repeat constructor].
  - right. eauto.
  - destruct Hq as [_ He]. unfold engineRun in *. cbn [foldl].
    by rewrite foldl_app, He.
Qed.

(** ** Identifier resolution *)

(** C7. An entity identifier whose curie has never been assigned an
    internal id makes [Details] fail with [NotFound]; and whichever
    resolution fails, the compaction to a curie or the lookup of the
    internal id, its error is what [Details] returns, and no iterator
    was opened before. *)
Theorem Details_unresolved_entity (l : Lookup) (id : string)
    (datasetNames : list string) :
  (∀ curie, asCURIE l id = Ok curie →
     dbEntityIDs (GetDB (badger l)) !! curie = None →
     Details Unmarshal SeekEntity SeekEntityChanges range l id datasetNames
     = ([TxnOpen false; TxnDiscard], Err NotFound))
  ∧ (∀ err, asCURIE l id = Err err →
     Details Unmarshal SeekEntity SeekEntityChanges range l id datasetNames
     = ([], Err err))
  ∧ (∀ curie err, asCURIE l id = Ok curie →
     InternalIDForCURIE (readTxn l) curie = Err err →
     (Details Unmarshal SeekEntity SeekEntityChanges range l id datasetNames).2 = Err err
     ∧ noScan (Details Unmarshal SeekEntity SeekEntityChanges range l id datasetNames).1).
Proof.
  assert (∀ curie err, asCURIE l id = Ok curie →
            InternalIDForCURIE (readTxn l) curie = Err err →
            Details Unmarshal SeekEntity SeekEntityChanges range l id datasetNames
            = ([TxnOpen false; TxnDiscard], Err err)) as Hres.
  { intros curie err Hc He. apply injective_projections.
    - unfold Details. by rewrite DetailsDuring_fst, Hc, He.
    - unfold Details. by rewrite DetailsDuring_snd, Hc, He. }
  split; [|split].
  - intros curie Hc Hnone. apply (Hres curie NotFound Hc).
    unfold InternalIDForCURIE, readTxn. cbn. by rewrite Hnone.
  - intros err Hc. apply injective_projections.
    + unfold Details. by rewrite DetailsDuring_fst, Hc.
    + unfold Details. by rewrite DetailsDuring_snd, Hc.
  - intros curie err Hc He. rewrite (Hres curie err Hc He). split; [done|].
    by repeat constructor.
Qed.

(** ** The accumulator of a call *)

Lemma scanLocator_Ok l rtxn e scope parts :
  (scanLocator SeekEntity l rtxn e scope).2 = Ok parts ↔
  decodable (iterate rtxn (SeekEntity e))
  ∧ parts = latestPerDataset (badger l) scope (iterate rtxn (SeekEntity e)).
Proof.
  rewrite scanLocator_eq. cbn [snd]. unfold decodable.
  case_decide; split; try done.
  - by intros [= <-].
  - by intros [_ ->].
  - by intros [? _].
Qed.

Lemma Details_Ok_accumulator l id names m :
  (Details Unmarshal SeekEntity SeekEntityChanges range l id names).2 = Ok m →
  ∃ e parts, entityOf l id = Some e
    ∧ (scanLocator SeekEntity l (readTxn l) e (LookupDatasetIDs (badger l) names)).2 = Ok parts
    ∧ foldR (insertEntry Unmarshal SeekEntityChanges (badger l) (readTxn l) e) ∅
            (range parts) = Ok m.
Proof.
  intros (e & He & Hdec & Hrun)%Details_Ok_inv.
  exists e, (latestPerDataset (badger l) (LookupDatasetIDs (badger l) names)
               (iterate (readTxn l) (SeekEntity e))).
  split; [done|]. split; [by apply scanLocator_Ok|done].
Qed.

Lemma Details_of_accumulator l id names e parts :
  entityOf l id = Some e →
  (scanLocator SeekEntity l (readTxn l) e (LookupDatasetIDs (badger l) names)).2 = Ok parts →
  (Details Unmarshal SeekEntity SeekEntityChanges range l id names).2 =
  foldR (insertEntry Unmarshal SeekEntityChanges (badger l) (readTxn l) e) ∅ (range parts).
Proof.
  intros He [Hdec ->]%scanLocator_Ok.
  rewrite (Details_entityOf _ _ _ _ He), loadDetails_snd.
  by rewrite decide_True.
Qed.

Lemma range_empty : range ∅ = [].
Proof.
  apply Permutation_nil_r. rewrite (rangeOf_perm range ∅).
  by rewrite map_to_list_empty.
Qed.

(** C9. The locator pass keeps 0 for "no previous dataset": whatever
    the store and the scope, the accumulator never holds dataset 0;
    every entry of a returned map was assembled from a dataset other
    than 0; and an entity whose locator entries all belong to dataset
    0 gets the empty map, deleted or not, in scope or not. *)
Theorem Details_dataset_zero_absent (l : Lookup) (id : string)
    (datasetNames : list string) :
  (∀ rtxn e scope parts,
     (scanLocator SeekEntity l rtxn e scope).2 = Ok parts → parts !! 0%N = None)
  ∧ (∀ m k v,
     (Details Unmarshal SeekEntity SeekEntityChanges range l id datasetNames).2 = Ok m →
     m !! k = Some v →
     ∃ d, d ≠ 0%N ∧ k = resultKey (badger l) d)
  ∧ (∀ e, entityOf l id = Some e →
     Forall (λ it : Item, datasetIDOfKey it.1 = Some 0%N)
            (iterate (readTxn l) (SeekEntity e)) →
     (Details Unmarshal SeekEntity SeekEntityChanges range l id datasetNames).2 = Ok ∅).
Proof.
  split; [|split].
  - intros rtxn e scope parts [_ ->]%scanLocator_Ok.
    rewrite latestPerDataset_lookup. cbn. by rewrite andb_false_r.
  - intros m k v (e & parts & _ & [_ ->]%scanLocator_Ok & Hrun)%Details_Ok_accumulator Hk.
    apply assemble_Ok in Hrun as (_ & Hsub & _).
    destruct (Hsub k v Hk) as (d & b & Hd & Hentry).
    exists d. split.
    + intros ->. rewrite latestPerDataset_lookup in Hd. cbn in Hd.
      by rewrite andb_false_r in Hd.
    + by apply entryOf_key in Hentry.
  - intros e He Hall.
    rewrite (Details_of_accumulator l id datasetNames e ∅ He).
    { by rewrite range_empty. }
    apply scanLocator_Ok. split.
    + eapply Forall_impl; [exact Hall|]. cbn. intros it ->. by eexists.
    + symmetry. apply map_eq. intros d. rewrite lookup_empty.
      apply not_elem_of_dom. rewrite accumulator_dom.
      intros (_ & Hne & it & Hin & Hd).
      rewrite Forall_forall in Hall. specialize (Hall it Hin). congruence.
Qed.

Lemma survives_deleted s scope d :
  IsDatasetDeleted s d = true → survives s scope d = false.
Proof. unfold survives. by intros ->. Qed.

(** C4. A dataset whose deleted flag is set never appears in the map
    [Details] returns, whatever the scope, the empty one included:
    the locator loop skips each of its entries, the accumulator has no
    value for it, every entry of the returned map was assembled from a
    dataset that is not flagged, and its key is absent unless a
    dataset that is not flagged bears the same key. *)
Theorem Details_excludes_deleted (l : Lookup) (id : string)
    (datasetNames : list string) (d : N) :
  IsDatasetDeleted (badger l) d = true →
  (∀ scope st item,
     datasetIDOfKey item.1 = Some d → locatorStep l scope st item = Ok st)
  ∧ (∀ rtxn e scope parts,
     (scanLocator SeekEntity l rtxn e scope).2 = Ok parts → parts !! d = None)
  ∧ (∀ m,
     (Details Unmarshal SeekEntity SeekEntityChanges range l id datasetNames).2 = Ok m →
     (∀ k v, m !! k = Some v →
        ∃ d', d' ≠ d ∧ IsDatasetDeleted (badger l) d' = false
              ∧ k = resultKey (badger l) d')
     ∧ ((∀ d', IsDatasetDeleted (badger l) d' = false →
           resultKey (badger l) d' ≠ resultKey (badger l) d) →
        resultKey (badger l) d ∉ dom m)).
Proof.
  intros Hdel.
  assert (∀ m k v,
    (Details Unmarshal SeekEntity SeekEntityChanges range l id datasetNames).2 = Ok m →
    m !! k = Some v →
    ∃ d', d' ≠ d ∧ IsDatasetDeleted (badger l) d' = false
          ∧ k = resultKey (badger l) d') as Hlive.
  { intros m k v (e & parts & _ & [_ ->]%scanLocator_Ok & Hrun)%Details_Ok_accumulator Hk.
    apply assemble_Ok in Hrun as (_ & Hsub & _).
    destruct (Hsub k v Hk) as (d' & b & Hd' & Hentry).
    assert (d' ∈ dom (latestPerDataset (badger l) (LookupDatasetIDs (badger l) datasetNames)
                        (iterate (readTxn l) (SeekEntity e)))) as Hin.
    { apply elem_of_dom. by exists b. }
    apply accumulator_dom in Hin as (Hs & _ & _).
    unfold survives in Hs. apply andb_true_iff in Hs as [Hs _].
    apply negb_true_iff in Hs.
    exists d'. split; [congruence|]. split; [done|].
    by apply entryOf_key in Hentry. }
  split; [|split].
  - intros scope st item Hkey. unfold locatorStep. by rewrite Hkey, Hdel.
  - intros rtxn e scope parts [_ ->]%scanLocator_Ok.
    rewrite latestPerDataset_lookup. by rewrite survives_deleted.
  - intros m Hm. split; [intros k v; by apply Hlive|].
    intros Hkeys [v Hv]%elem_of_dom.
    destruct (Hlive m _ v Hm Hv) as (d' & _ & Hd' & Hk).
    by apply (Hkeys d' Hd').
Qed.

(** C10. When the identifier resolves and every locator entry of the
    entity is filtered out, because its dataset is flagged deleted or
    lies outside a non-empty scope, [Details] returns the empty map and
    no error; so it does when the entity has no locator entry at all. *)
Theorem Details_nothing_survives (l : Lookup) (id : string)
    (datasetNames : list string) (e : N) :
  entityOf l id = Some e →
  Forall (λ it : Item, ∃ d, datasetIDOfKey it.1 = Some d
            ∧ survives (badger l) (LookupDatasetIDs (badger l) datasetNames) d = false)
         (iterate (readTxn l) (SeekEntity e)) →
  (Details Unmarshal SeekEntity SeekEntityChanges range l id datasetNames).2 = Ok ∅.
Proof.
  intros He Hall.
  rewrite (Details_of_accumulator l id datasetNames e ∅ He).
  { by rewrite range_empty. }
  apply scanLocator_Ok. split.
  - eapply Forall_impl; [exact Hall|]. cbn. intros it (d & -> & _). by eexists.
  - symmetry. apply map_eq. intros d. rewrite lookup_empty.
    apply not_elem_of_dom. rewrite accumulator_dom.
    intros (Hs & _ & it & Hin & Hd).
    rewrite Forall_forall in Hall. destruct (Hall it Hin) as (d' & Hd' & Hs').
    congruence.
Qed.



(** ** Latest and changes *)

Lemma mapM_last {A B} (f : A → option B) l k x y :
  mapM f l = Some k → last l = Some x → f x = Some y → last k = Some y.
Proof.
  intros Hk%mapM_Some [l' ->]%last_Some Hx.
  apply Forall2_app_inv_l in Hk as (k1 & k2 & _ & Hk2 & ->).
  apply Forall2_cons_inv_l in Hk2 as (y' & k3 & Hy' & Hk3 & ->).
  apply Forall2_nil_inv_l in Hk3 as ->.
  rewrite last_snoc. congruence.
Qed.

Lemma StronglySorted_filter {A} (R : relation A) (P : A → Prop)
    `{!∀ x, Decision (P x)} (l : list A) :
  StronglySorted R l → StronglySorted R (filter P l).
Proof.
  induction 1 as [|x l Hl IH Hx]; [constructor|].
  destruct (decide (P x)).
  - rewrite filter_cons_True by done. constructor; [done|].
    apply Forall_forall. intros y [_ Hy]%list_elem_of_filter.
    by eapply Forall_forall in Hx.
  - by rewrite filter_cons_False.
Qed.

(** The entries an iterator visits come in ascending key order. *)
Lemma iterate_ascending rtxn p :
  keysAscending (txnView rtxn) →
  StronglySorted (λ x y : Item, bytesLt x.1 y.1 = true) (iterate rtxn p).
Proof.
  intros Hasc. rewrite iterate_filter by done. by apply StronglySorted_filter.
Qed.

(** C3. Take a store in which, for the entity and each dataset named
    [n], the last locator entry of the pair in key order and the last
    entry of the pair's change log hold the same value.  Then for an
    entry [{latest, changes}] found under [n] in the map [Details]
    returns, [latest] is the last element of [changes]; and [changes]
    lists, one for one and in the order visited, the decoded entries
    under the change-log prefix of a dataset named [n], which on keys
    in ascending order is ascending key order, oldest first. *)
Theorem Details_latest_is_last_change (l : Lookup) (id : string)
    (datasetNames : list string) (e : N) (m : gmap string (detail Doc))
    (n : string) (latest : Doc) (changes : list Doc) :
  entityOf l id = Some e →
  (Details Unmarshal SeekEntity SeekEntityChanges range l id datasetNames).2 = Ok m →
  m !! n = Some (Dataset latest changes) →
  (∀ d, LookupDatasetName (badger l) d = Some n →
     last (valuesOf d (iterate (readTxn l) (SeekEntity e)))
     = last (iterate (readTxn l) (SeekEntityChanges d e)).*2) →
  last changes = Some latest
  ∧ ∃ d, LookupDatasetName (badger l) d = Some n
      ∧ Forall2 (λ (item : Item) doc, Unmarshal item.2 = Some doc)
                (iterate (readTxn l) (SeekEntityChanges d e)) changes
      ∧ (keysAscending (GetDB (badger l)) →
         StronglySorted (λ x y : Item, bytesLt x.1 y.1 = true)
                        (iterate (readTxn l) (SeekEntityChanges d e))).
Proof.
  intros He Hm Hn Hinv.
  apply Details_Ok_inv in Hm as (e' & He' & _ & Hrun).
  assert (e' = e) as -> by congruence.
  apply assemble_Ok in Hrun as (_ & Hsub & _).
  destruct (Hsub n _ Hn) as (d & b & Hb & Hentry).
  unfold entryOf, decodeAll in Hentry. cbn [fst snd] in Hentry.
  destruct (LookupDatasetName (badger l) d) as [n'|] eqn:Hname; [|done].
  destruct (Unmarshal b) as [entity|] eqn:Hentity; [|done].
  destruct (mapM Unmarshal _) as [docs|] eqn:Hdocs; [|done].
  injection Hentry as -> -> ->.
  rewrite latestPerDataset_lookup in Hb.
  destruct (_ && _); [|done].
  rewrite (Hinv d Hname) in Hb.
  split; [by eapply mapM_last|].
  exists d. split; [done|]. split.
  - apply mapM_Some in Hdocs. by apply Forall2_fmap_l in Hdocs.
  - intros Hasc. by apply iterate_ascending.
Qed.

(** ** The scope *)

Lemma scopeHas_elem_of scope d : scopeHas scope d = true ↔ d ∈ scope.
Proof.
  induction scope as [|x scope IH]; cbn.
  { split; [done|]. by intros ?%elem_of_nil. }
  rewrite elem_of_cons. destruct (N.eqb_spec x d) as [->|Hne].
  - split; [by left|done].
  - rewrite IH. split; [by right|]. intros [?|?]; [congruence|done].
Qed.

Lemma datasetIncluded_nonempty scope d :
  scope ≠ [] → datasetIncluded scope d = true ↔ d ∈ scope.
Proof.
  intros Hne. unfold datasetIncluded.
  destruct scope; [done|]. cbn [length Nat.eqb]. apply scopeHas_elem_of.
Qed.

Lemma appearsIn_iterate rtxn p d :
  keysAscending (txnView rtxn) →
  appearsIn (txnView rtxn) p d ↔
  ∃ item : Item, item ∈ iterate rtxn p ∧ datasetIDOfKey item.1 = Some d.
Proof.
  intros Hasc. rewrite iterate_filter by done. unfold appearsIn.
  setoid_rewrite list_elem_of_filter. split.
  - intros (item & Hin & Hpre & Hd). by exists item.
  - intros (item & [Hpre Hin] & Hd). by exists item.
Qed.

(** C1, as amended.  For a filter that resolves to at least one
    internal dataset id, the keys of the map [Details] returns are
    exactly the result keys of the datasets that the filter resolves
    to, that have an internal id other than 0, that are not flagged
    deleted and in which the entity has a locator entry.  Where every
    filter name that resolves is the display name of its id, these are
    the filter names that resolve to such a dataset. *)
Theorem Details_scope_filter (l : Lookup) (id : string)
    (datasetNames : list string) (m : gmap string (detail Doc)) :
  keysAscending (GetDB (badger l)) →
  LookupDatasetIDs (badger l) datasetNames ≠ [] →
  (Details Unmarshal SeekEntity SeekEntityChanges range l id datasetNames).2 = Ok m →
  ∃ e, entityOf l id = Some e
    ∧ (∀ k, k ∈ dom m ↔
         ∃ d, d ∈ LookupDatasetIDs (badger l) datasetNames
              ∧ d ≠ 0%N
              ∧ IsDatasetDeleted (badger l) d = false
              ∧ appearsIn (GetDB (badger l)) (SeekEntity e) d
              ∧ k = resultKey (badger l) d)
    ∧ ((∀ n d, n ∈ datasetNames → LookupDatasetID (badger l) n = Some d →
          LookupDatasetName (badger l) d = Some n) →
       ∀ k, k ∈ dom m ↔
         k ∈ datasetNames
         ∧ ∃ d, LookupDatasetID (badger l) k = Some d
                ∧ d ≠ 0%N
                ∧ IsDatasetDeleted (badger l) d = false
                ∧ appearsIn (GetDB (badger l)) (SeekEntity e) d).
Proof.
  intros Hasc Hscope (e & He & _ & Hrun)%Details_Ok_inv.
  exists e. split; [done|].
  apply assemble_Ok in Hrun as (Hdom & _ & _).
  assert (∀ k, k ∈ dom m ↔
            ∃ d, d ∈ LookupDatasetIDs (badger l) datasetNames
                 ∧ d ≠ 0%N
                 ∧ IsDatasetDeleted (badger l) d = false
                 ∧ appearsIn (GetDB (badger l)) (SeekEntity e) d
                 ∧ k = resultKey (badger l) d) as Hkeys.
  { intros k. rewrite Hdom. split.
    - intros (d & Hd & ->).
      apply accumulator_dom in Hd as (Hs & Hd0 & Hitem).
      unfold survives in Hs. apply andb_true_iff in Hs as [Hdel Hinc].
      apply negb_true_iff in Hdel.
      apply (datasetIncluded_nonempty _ _ Hscope) in Hinc.
      exists d. do 3 (split; [done|]). split; [|done].
      by apply (appearsIn_iterate (readTxn l)).
    - intros (d & Hin & Hd0 & Hdel & Happ & ->).
      exists d. split; [|done]. apply accumulator_dom.
      split; [|split; [done|]].
      + unfold survives. rewrite Hdel. cbn.
        by apply (datasetIncluded_nonempty _ _ Hscope).
      + by apply (appearsIn_iterate (readTxn l)) in Happ. }
  split; [done|].
  intros Hround k. rewrite Hkeys. unfold LookupDatasetIDs.
  setoid_rewrite list_elem_of_omap. split.
  - intros (d & (n & Hn & Hnd) & Hd0 & Hdel & Happ & ->).
    unfold resultKey. rewrite (Hround n d Hn Hnd). eauto 10.
  - intros (Hk & d & Hkd & Hd0 & Hdel & Happ).
    exists d. split; [by eauto|]. do 3 (split; [done|]).
    unfold resultKey. by rewrite (Hround k d Hk Hkd).
Qed.

(** The lookup sees the filter only through the ids it resolves to:
    two filters with the same resolution give the same call. *)
Lemma Details_same_scope l id names names' :
  LookupDatasetIDs (badger l) names = LookupDatasetIDs (badger l) names' →
  Details Unmarshal SeekEntity SeekEntityChanges range l id names
  = Details Unmarshal SeekEntity SeekEntityChanges range l id names'.
Proof. intros Heq. unfold Details, DetailsDuring. by rewrite Heq. Qed.

(** ** Snapshot and registry *)

Lemma foldM_ext {A B} (f g : A → B → M A) l :
  (∀ a x, f a x = g a x) → ∀ a, foldM f a l = foldM g a l.
Proof.
  intros Hfg. induction l as [|x l IH]; intros a; [done|].
  cbn [foldM]. rewrite Hfg. destruct (g a x) as [es [a'| |]]; cbn; [|done..].
  by rewrite IH.
Qed.

Lemma loadDetails_registry (l now : Lookup) rtxn e scope :
  (∀ d, IsDatasetDeleted (badger now) d = IsDatasetDeleted (badger l) d) →
  (∀ d, LookupDatasetName (badger now) d = LookupDatasetName (badger l) d) →
  loadDetails Unmarshal SeekEntity SeekEntityChanges range now rtxn e scope
  = loadDetails Unmarshal SeekEntity SeekEntityChanges range l rtxn e scope.
Proof.
  intros Hdel Hname. unfold loadDetails, scanLocator.
  rewrite (foldM_ext _ (λ st item, lift (locatorStep l scope st item))).
  2:{ intros st item. unfold locatorStep. destruct (datasetIDOfKey item.1); [|done].
      by rewrite Hdel. }
  do 2 f_equal.
  destruct (foldM _ scanInit _) as [es [st| |]]; cbn; [|done..].
  rewrite (foldM_ext _ (assembleStep Unmarshal SeekEntityChanges l rtxn e)); [done|].
  intros m [d b]. unfold assembleStep. by rewrite Hname.
Qed.

(** C2, as amended.  The resolution of the entity id, the locator scan
    and the change-log scans read through the transaction and see the
    store as it was when the transaction opened: whatever pairs and
    entity ids the store has moved to by the time the calls run, the
    call returns what it returns on the store left alone.  The deletion
    check, the resolution of dataset names and that of the scope are
    calls on the store itself; the call is unaffected by a later write
    provided these three answer as they did when the transaction
    opened. *)
Theorem Details_snapshot_registry (l now : Lookup) (id : string)
    (datasetNames : list string) :
  (∀ n, LookupDatasetID (badger now) n = LookupDatasetID (badger l) n) →
  (∀ d, IsDatasetDeleted (badger now) d = IsDatasetDeleted (badger l) d) →
  (∀ d, LookupDatasetName (badger now) d = LookupDatasetName (badger l) d) →
  DetailsDuring Unmarshal SeekEntity SeekEntityChanges range l now id datasetNames
  = Details Unmarshal SeekEntity SeekEntityChanges range l id datasetNames.
Proof.
  intros Hid Hdel Hname.
  assert (LookupDatasetIDs (badger now) datasetNames
          = LookupDatasetIDs (badger l) datasetNames) as Hscope.
  { unfold LookupDatasetIDs. induction datasetNames as [|n ns IH]; [done|].
    cbn. by rewrite Hid, IH. }
  unfold Details. apply injective_projections.
  - rewrite !DetailsDuring_fst, Hscope.
    destruct (asCURIE l id) as [curie| |]; [|done..].
    destruct (InternalIDForCURIE (readTxn l) curie) as [e| |]; [|done..].
    by rewrite (loadDetails_registry l now).
  - rewrite !DetailsDuring_snd, Hscope.
    destruct (asCURIE l id) as [curie| |]; [|done..].
    destruct (InternalIDForCURIE (readTxn l) curie) as [e| |]; [|done..].
    by rewrite (loadDetails_registry l now).
Qed.

End Facts.

(* ================================================================== *)
(** * The lookup on the example stores *)

(** The end-to-end scenario: [Details("ex:3", [])] returns exactly the
    keys [people] and [contacts]; the latest document of [people] is
    its second version and its changes are the two versions in order;
    [contacts] has one change. *)
Example Details_scenario :
  (demoDetails exLookup "ex:3" []).2 =
  Ok (<["people" := Dataset (text frankV2)
                            [(text frankV1); (text frankV2)]]>
      (<["contacts" := Dataset (text telDoc) [(text telDoc)]]> ∅)).
Proof. vm_compute. reflexivity. Qed.

Example Details_scenario_trace :
  (demoDetails exLookup "ex:3" ["people"]).1 =
  [ TxnOpen false;
    IterOpen (demoSeekEntity 8);
    IterOpen (demoSeekEntityChanges 1 8);
    IterClose (demoSeekEntityChanges 1 8);
    IterClose (demoSeekEntity 8);
    TxnDiscard ].
Proof. vm_compute. reflexivity. Qed.

Lemma exItems_ascending : keysAscending (GetDB (badger exLookup)).
Proof. unfold keysAscending. cbn. repeat constructor. Qed.

(** ** C1 *)

(** The property as worded fails in two ways.  A filter none of whose
    names is known leaves the lookup unrestricted: [people] is returned
    for the filter [nosuch].  And the dataset with internal id 0 is
    never returned: the filter [zero] names a live dataset the entity
    appears in, and the map is empty. *)
Lemma scopeFilterClaim_fails :
  ¬ scopeFilterClaim demoUnmarshal demoSeekEntity demoSeekEntityChanges demoRange
      exLookup "ex:3" ["nosuch"]
  ∧ ¬ scopeFilterClaim demoUnmarshal demoSeekEntity demoSeekEntityChanges demoRange
      zeroLookup "ex:3" ["zero"].
Proof.
  split.
  - intros Hclaim.
    assert ((demoDetails exLookup "ex:3" ["nosuch"]).2
            = Ok (returned (demoDetails exLookup "ex:3" ["nosuch"]))) as Hm
      by (vm_compute; reflexivity).
    destruct (Hclaim ltac:(done) _ Hm "people") as [Hin _].
    destruct Hin as [Hin _].
    + apply elem_of_dom. vm_compute. by eexists.
    + apply list_elem_of_singleton in Hin. discriminate.
  - intros Hclaim.
    assert ((demoDetails zeroLookup "ex:3" ["zero"]).2 = Ok ∅) as Hm
      by (vm_compute; reflexivity).
    destruct (Hclaim ltac:(done) _ Hm "zero") as [_ Hin].
    rewrite dom_empty in Hin. apply (not_elem_of_empty (C:=gset string) "zero").
    apply Hin. split; [by apply list_elem_of_singleton|].
    exists 8%N, 0%N. do 3 (split; [reflexivity|]).
    exists (locatorKey 8 0 1, zeroDoc).
    split; [by left|]. split; reflexivity.
Qed.

(** The filter [people; nosuch] on the example store: [people] is
    returned; [contacts], which the entity is in too, and the unknown
    [nosuch] are not. *)
Lemma Details_scope_filter_witness :
  LookupDatasetIDs (badger exLookup) ["people"; "nosuch"] = [1%N]
  ∧ "people" ∈ dom (returned (demoDetails exLookup "ex:3" ["people"; "nosuch"]))
  ∧ ("contacts" ∉ dom (returned (demoDetails exLookup "ex:3" ["people"; "nosuch"])))
  ∧ ("nosuch" ∉ dom (returned (demoDetails exLookup "ex:3" ["people"; "nosuch"]))).
Proof.
  split; [reflexivity|].
  destruct (Details_scope_filter demoUnmarshal demoSeekEntity demoSeekEntityChanges
              demoRange exLookup "ex:3" ["people"; "nosuch"]
              (returned (demoDetails exLookup "ex:3" ["people"; "nosuch"])))
    as (e & He & _ & Hnames).
  - apply exItems_ascending.
  - vm_compute. discriminate.
  - vm_compute. reflexivity.
  - assert (e = 8%N) as -> by (vm_compute in He; congruence).
    assert (∀ n d, n ∈ ["people"; "nosuch"] →
              LookupDatasetID (badger exLookup) n = Some d →
              LookupDatasetName (badger exLookup) d = Some n) as Hround.
    { intros n d _.
      unfold exLookup, demoLookup, exTable.
      cbn [badger LookupDatasetID LookupDatasetName idOfName].
      destruct (String.eqb_spec "people" n) as [<-|_]; [by intros [= <-]|].
      destruct (String.eqb_spec "contacts" n) as [<-|_]; [by intros [= <-]|done]. }
    specialize (Hnames Hround). split; [|split].
    + apply Hnames. split; [by left|].
      exists 1%N. do 3 (split; [done|]).
      exists (locatorKey 8 1 1, frankV1).
      split; [by left|]. split; reflexivity.
    + intros [Hin _]%Hnames.
      apply elem_of_cons in Hin as [?|Hin]; [done|].
      by apply list_elem_of_singleton in Hin.
    + intros (_ & d & Hd & _)%Hnames. vm_compute in Hd. discriminate.
Defined.


(** ** C2 *)

(** The documents of the example store are JSON objects; the first
    version of [ex:3] in [people] byte for byte. *)
Example frankV1_bytes :
  frankV1 = [x7b; x22; x6e; x61; x6d; x65; x22; x3a;
             x22; x46; x72; x61; x6e; x6b; x22; x7d].
Proof. reflexivity. Qed.

(** With [people] flagged deleted once the transaction is open, the
    call returns [contacts] alone; left alone it returns both
    ([Details_scenario]). *)
Example DetailsDuring_deleted_scenario :
  (DetailsDuring demoUnmarshal demoSeekEntity demoSeekEntityChanges demoRange
     exLookup exLookupDeleted "ex:3" []).2
  = Ok (<["contacts" := Dataset (text telDoc) [(text telDoc)]]> ∅).
Proof. vm_compute. reflexivity. Qed.

(** [people] is flagged deleted after the transaction was opened: the
    call, still running, no longer returns it.  Every document of the
    store is a JSON object, so the decoder has nothing to refuse. *)
Lemma snapshotClaim_fails :
  ¬ snapshotClaim demoUnmarshal demoSeekEntity demoSeekEntityChanges demoRange
      exLookup exLookupDeleted "ex:3" [].
Proof.
  unfold snapshotClaim. intros Heq.
  assert (returnsKey "people"
            (DetailsDuring demoUnmarshal demoSeekEntity demoSeekEntityChanges demoRange
               exLookup exLookupDeleted "ex:3" [])
          = returnsKey "people" (demoDetails exLookup "ex:3" [])) as Hkey.
  { unfold returnsKey. by rewrite Heq. }
  vm_compute in Hkey. discriminate.
Qed.

(** A third version of the entity is committed after the transaction
    was opened: the call returns what it returns without that write. *)
Lemma Details_snapshot_registry_witness :
  DetailsDuring demoUnmarshal demoSeekEntity demoSeekEntityChanges demoRange
    exLookup exLookupLater "ex:3" ["people"]
  = demoDetails exLookup "ex:3" ["people"]
  ∧ (demoDetails exLookupLater "ex:3" ["people"]).2
    ≠ (demoDetails exLookup "ex:3" ["people"]).2.
Proof.
  split.
  - apply (Details_snapshot_registry demoUnmarshal demoSeekEntity demoSeekEntityChanges
             demoRange exLookup exLookupLater "ex:3" ["people"]);
      intros; reflexivity.
  - intros Heq.
    assert (length <$> (match (demoDetails exLookupLater "ex:3" ["people"]).2 with
                        | Ok m => match m !! "people" with
                                  | Some (Dataset _ changes) => Some changes
                                  | _ => None
                                  end
                        | _ => None
                        end) = Some 2) as Hlen.
    { rewrite Heq. vm_compute. reflexivity. }
    vm_compute in Hlen. discriminate.
Defined.

(** ** C3 *)

Lemma Details_latest_is_last_change_witness :
  last [(text frankV1); (text frankV2)] = Some (text frankV2)
  ∧ ∃ d, LookupDatasetName (badger exLookup) d = Some "people"
      ∧ Forall2 (λ (item : Item) doc, demoUnmarshal item.2 = Some doc)
                (iterate (readTxn exLookup) (demoSeekEntityChanges d 8))
                [(text frankV1); (text frankV2)]
      ∧ (keysAscending (GetDB (badger exLookup)) →
         StronglySorted (λ x y : Item, bytesLt x.1 y.1 = true)
                        (iterate (readTxn exLookup) (demoSeekEntityChanges d 8))).
Proof.
  apply (Details_latest_is_last_change demoUnmarshal demoSeekEntity demoSeekEntityChanges
           demoRange exLookup "ex:3" [] 8 (returned (demoDetails exLookup "ex:3" []))
           "people").
  - reflexivity.
  - vm_compute. reflexivity.
  - vm_compute. reflexivity.
  - intros d. unfold exLookup, demoLookup, exTable.
    cbn [badger LookupDatasetName nameOfID].
    destruct (N.eqb_spec 1 d) as [<-|_]; [intros _; vm_compute; reflexivity|].
    destruct (N.eqb_spec 2 d) as [<-|_]; [intros [=]|intros [=]].
Defined.

(** ** C4 *)

Lemma Details_excludes_deleted_witness :
  (∀ parts,
     (scanLocator demoSeekEntity exLookupDeleted (readTxn exLookupDeleted) 8 []).2
     = Ok parts → parts !! 1%N = None)
  ∧ (∀ k v, returned (demoDetails exLookupDeleted "ex:3" []) !! k = Some v →
       ∃ d', d' ≠ 1%N ∧ IsDatasetDeleted (badger exLookupDeleted) d' = false
             ∧ k = resultKey (badger exLookupDeleted) d').
Proof.
  destruct (Details_excludes_deleted demoUnmarshal demoSeekEntity demoSeekEntityChanges
              demoRange exLookupDeleted "ex:3" [] 1%N) as (_ & Hparts & Hm).
  - vm_compute. reflexivity.
  - split.
    + intros parts. apply Hparts.
    + apply (Hm (returned (demoDetails exLookupDeleted "ex:3" []))).
      vm_compute. reflexivity.
Defined.

Example Details_deleted_scenario :
  (demoDetails exLookupDeleted "ex:3" []).2
  = Ok (<["contacts" := Dataset (text telDoc) [(text telDoc)]]> ∅).
Proof. vm_compute. reflexivity. Qed.

(** ** C5 *)



(** ** C6 *)


(** ** C7 *)

Lemma Details_unresolved_entity_witness :
  demoDetails exLookup "ex:404" [] = ([TxnOpen false; TxnDiscard], Err NotFound)
  ∧ demoDetails exLookup "urn:404" [] = ([], Err InvalidIdentifier).
Proof.
  split.
  - apply (Details_unresolved_entity demoUnmarshal demoSeekEntity demoSeekEntityChanges
             demoRange exLookup "ex:404" []) with (curie := "ex:404"); reflexivity.
  - apply (Details_unresolved_entity demoUnmarshal demoSeekEntity demoSeekEntityChanges
             demoRange exLookup "urn:404" []). reflexivity.
Defined.

(** ** C9 *)

(** Dataset [zero] is live, named in the filter, and holds the entity:
    the call returns the empty map. *)
Lemma Details_dataset_zero_absent_witness :
  IsDatasetDeleted (badger zeroLookup) 0%N = false
  ∧ LookupDatasetIDs (badger zeroLookup) ["zero"] = [0%N]
  ∧ appearsIn (GetDB (badger zeroLookup)) (demoSeekEntity 8) 0%N
  ∧ (demoDetails zeroLookup "ex:3" ["zero"]).2 = Ok ∅.
Proof.
  split; [reflexivity|]. split; [reflexivity|]. split.
  - exists (locatorKey 8 0 1, zeroDoc). split; [by left|]. split; reflexivity.
  - apply (Details_dataset_zero_absent demoUnmarshal demoSeekEntity demoSeekEntityChanges
             demoRange zeroLookup "ex:3" ["zero"]) with (e := 8%N).
    + reflexivity.
    + vm_compute. repeat constructor.
Defined.

(** ** C10 *)

(** With [people] flagged deleted and [contacts] outside the filter no
    entry of [ex:3] is left; [ex:9] has no entry to begin with. *)
Lemma Details_nothing_survives_witness :
  (demoDetails exLookupDeleted "ex:3" ["people"]).2 = Ok ∅
  ∧ (demoDetails exLookup "ex:9" []).2 = Ok ∅.
Proof.
  split.
  - apply (Details_nothing_survives demoUnmarshal demoSeekEntity demoSeekEntityChanges
             demoRange exLookupDeleted "ex:3" ["people"] 8).
    + reflexivity.
    + vm_compute.
      repeat (constructor; [eexists; split; reflexivity|]). constructor.
  - apply (Details_nothing_survives demoUnmarshal demoSeekEntity demoSeekEntityChanges
             demoRange exLookup "ex:9" [] 9).
    + reflexivity.
    + vm_compute. constructor.
Defined.


(* ================================================================== *)
(** * Further properties of the lookup *)

Section Outcomes.
Context {Doc : Type}.
Variable Unmarshal : bytes → option Doc.
Variable SeekEntity : N → bytes.
Variable SeekEntityChanges : N → N → bytes.

(** ** The dataset id of a key *)

Lemma land_low_shifted (a b n : N) :
  (a < 2 ^ n)%N → N.land a (b * 2 ^ n) = 0%N.
Proof.
  intros Ha. apply N.bits_inj. intros i. rewrite N.land_spec, N.bits_0.
  destruct (N.lt_ge_cases i n) as [Hi|Hi].
  - rewrite N.mul_pow2_bits_low by done. apply andb_false_r.
  - destruct (N.eq_dec a 0%N) as [->|Ha0]; [by rewrite N.bits_0|].
    rewrite (N.bits_above_log2 a i); [done|].
    apply N.log2_lt_pow2; [lia|].
    eapply N.lt_le_trans; [exact Ha|]. apply N.pow_le_mono_r; [lia|done].
Qed.

Lemma lor_shiftl_add (a b n : N) :
  (a < 2 ^ n)%N → N.lor a (N.shiftl b n) = (a + b * 2 ^ n)%N.
Proof.
  intros Ha. rewrite N.shiftl_mul_pow2.
  rewrite <-N.lxor_lor by (by apply land_low_shifted).
  symmetry. apply N.add_nocarry_lxor. by apply land_low_shifted.
Qed.

Lemma Uint32_value (b0 b1 b2 b3 : byte) (rest : bytes) :
  Uint32 (b0 :: b1 :: b2 :: b3 :: rest) =
  Some (Byte.to_N b3 + 256 * Byte.to_N b2 + 65536 * Byte.to_N b1
        + 16777216 * Byte.to_N b0)%N.
Proof.
  pose proof (Byte.to_N_bounded b0). pose proof (Byte.to_N_bounded b1).
  pose proof (Byte.to_N_bounded b2). pose proof (Byte.to_N_bounded b3).
  cbn [Uint32]. f_equal.
  rewrite (lor_shiftl_add _ _ 8) by (change (2 ^ 8)%N with 256%N; lia).
  rewrite (lor_shiftl_add _ _ 16) by (change (2 ^ 8)%N with 256%N;
                                      change (2 ^ 16)%N with 65536%N; lia).
  rewrite (lor_shiftl_add _ _ 24) by (change (2 ^ 8)%N with 256%N;
                                      change (2 ^ 16)%N with 65536%N;
                                      change (2 ^ 24)%N with 16777216%N; lia).
  change (2 ^ 8)%N with 256%N. change (2 ^ 16)%N with 65536%N.
  change (2 ^ 24)%N with 16777216%N. lia.
Qed.

Lemma datasetIDOfKey_is_Some (key : bytes) :
  is_Some (datasetIDOfKey key) ↔ 14 ≤ length key.
Proof.
  unfold datasetIDOfKey.
  pose proof (length_drop key 10) as Hlen.
  destruct (drop 10 key) as [|b0 [|b1 [|b2 [|b3 rest]]]]; cbn in Hlen.
  1-4: split; [by intros [? [=]]|lia].
  split; [lia|]. intros _. rewrite Uint32_value. by eexists.
Qed.

(** X9. The dataset id read from a locator key is that of bytes 10 to
    13 and of nothing else: the key has one exactly when it is at least
    14 bytes long, the id is below 2^32, and two keys have the same id
    exactly when they agree on these four bytes; what follows them, the
    version ordinal, plays no part. *)
Theorem datasetIDOfKey_bytes (key key' : bytes) :
  (is_Some (datasetIDOfKey key) ↔ 14 ≤ length key)
  ∧ (∀ d, datasetIDOfKey key = Some d → (d < 2 ^ 32)%N)
  ∧ (14 ≤ length key → 14 ≤ length key' →
     datasetIDOfKey key = datasetIDOfKey key' ↔
     take 4 (drop 10 key) = take 4 (drop 10 key')).
Proof.
  split; [apply datasetIDOfKey_is_Some|]. split.
  - unfold datasetIDOfKey. intros d.
    destruct (drop 10 key) as [|b0 [|b1 [|b2 [|b3 rest]]]]; try done.
    rewrite Uint32_value. intros [= <-].
    pose proof (Byte.to_N_bounded b0). pose proof (Byte.to_N_bounded b1).
    pose proof (Byte.to_N_bounded b2). pose proof (Byte.to_N_bounded b3).
    change (2 ^ 32)%N with 4294967296%N. lia.
  - intros [d Hd]%datasetIDOfKey_is_Some [d' Hd']%datasetIDOfKey_is_Some.
    unfold datasetIDOfKey in *.
    destruct (drop 10 key) as [|b0 [|b1 [|b2 [|b3 rest]]]]; try done.
    destruct (drop 10 key') as [|c0 [|c1 [|c2 [|c3 rest']]]]; try done.
    rewrite !Uint32_value. cbn [take].
    pose proof (Byte.to_N_bounded b0). pose proof (Byte.to_N_bounded b1).
    pose proof (Byte.to_N_bounded b2). pose proof (Byte.to_N_bounded b3).
    pose proof (Byte.to_N_bounded c0). pose proof (Byte.to_N_bounded c1).
    pose proof (Byte.to_N_bounded c2). pose proof (Byte.to_N_bounded c3).
    split.
    + intros [= Heq].
      assert (Byte.to_N b0 = Byte.to_N c0 ∧ Byte.to_N b1 = Byte.to_N c1
              ∧ Byte.to_N b2 = Byte.to_N c2 ∧ Byte.to_N b3 = Byte.to_N c3)
        as (?%to_N_inj & ?%to_N_inj & ?%to_N_inj & ?%to_N_inj) by lia.
      by subst.
    + by intros [= -> -> -> ->].
Qed.

(** ** How a call ends *)

Lemma Exists_undecodable (items : list Item) :
  Exists (λ item : Item, Unmarshal item.2 = None) items
  ↔ Exists (λ v, Unmarshal v = None) items.*2.
Proof. by rewrite Exists_fmap. Qed.

Lemma mapM_decoded (items : list Item) (docs : list Doc) :
  mapM Unmarshal items.*2 = Some docs
  ↔ Forall2 (λ (item : Item) doc, Unmarshal item.2 = Some doc) items docs.
Proof. by rewrite mapM_Some, Forall2_fmap_l. Qed.

Lemma entryOf_Err s rtxn e d b :
  entryOf Unmarshal SeekEntityChanges s rtxn e (d, b) = Err Corrupt ↔
  ∃ n, LookupDatasetName s d = Some n
       ∧ (Unmarshal b = None
          ∨ Exists (λ item : Item, Unmarshal item.2 = None)
                   (iterate rtxn (SeekEntityChanges d e))).
Proof.
  unfold entryOf, decodeAll. cbn [fst snd].
  destruct (LookupDatasetName s d) as [n|]; [|split; [done|by intros (? & ? & _)]].
  destruct (Unmarshal b) as [entity|].
  - destruct (mapM Unmarshal _) as [docs|] eqn:Hdocs.
    + split; [done|]. intros (_ & _ & [?|Hex]); [done|].
      apply Exists_undecodable, mapM_None_2 in Hex. congruence.
    + split; [|done]. intros _. exists n. split; [done|]. right.
      by apply Exists_undecodable, mapM_None_1.
  - split; [|done]. intros _. exists n. split; [done|by left].
Qed.

Lemma entryOf_Ok s rtxn e d b k v :
  entryOf Unmarshal SeekEntityChanges s rtxn e (d, b) = Ok (k, v) ↔
  (LookupDatasetName s d = None ∧ k = pretty d
   ∧ v = Diagnostic "UNEXPECTED: dataset name not found")
  ∨ (LookupDatasetName s d = Some k
     ∧ ∃ latest changes,
         v = Dataset latest changes ∧ Unmarshal b = Some latest
         ∧ Forall2 (λ (item : Item) doc, Unmarshal item.2 = Some doc)
                   (iterate rtxn (SeekEntityChanges d e)) changes).
Proof.
  unfold entryOf, decodeAll. cbn [fst snd].
  destruct (LookupDatasetName s d) as [n|].
  - destruct (Unmarshal b) as [entity|].
    + destruct (mapM Unmarshal _) as [docs|] eqn:Hdocs.
      * split.
        -- intros [= <- <-]. right. split; [done|]. exists entity, docs.
           do 2 (split; [done|]). by apply mapM_decoded.
        -- intros [(? & _)|([= ->] & latest & changes & -> & [= <-] & Hall)]; [done|].
           apply mapM_decoded in Hall. congruence.
      * split; [done|].
        intros [(? & _)|(_ & latest & changes & _ & _ & Hall)]; [done|].
        apply mapM_decoded in Hall. congruence.
    + split; [done|]. by intros [(? & _)|(_ & ? & ? & _ & ? & _)].
  - split.
    + intros [= <- <-]. by left.
    + by intros [(_ & -> & ->)|(? & _)].
Qed.

Lemma foldR_insertEntry_cases s rtxn e L : ∀ m,
  (∃ m', foldR (insertEntry Unmarshal SeekEntityChanges s rtxn e) m L = Ok m'
         ∧ Forall (λ kv, ∃ k v,
                     entryOf Unmarshal SeekEntityChanges s rtxn e kv = Ok (k, v)) L)
  ∨ (foldR (insertEntry Unmarshal SeekEntityChanges s rtxn e) m L = Err Corrupt
     ∧ Exists (λ kv, entryOf Unmarshal SeekEntityChanges s rtxn e kv = Err Corrupt) L).
Proof.
  induction L as [|kv L IH]; intros m; [left; by eauto|].
  cbn [foldR]. unfold insertEntry at 1 3.
  destruct (entryOf_cases Unmarshal SeekEntityChanges s rtxn e kv)
    as [Hbad|(k & v & Hkv)].
  - right. rewrite Hbad. split; [done|by left].
  - rewrite Hkv. destruct (IH (<[k := v]> m)) as [(m' & Hm' & Hall)|[Herr Hex]].
    + left. exists m'. split; [done|]. constructor; [by eauto|done].
    + right. split; [done|by right].
Qed.

(** What [Details] returns once the entity is resolved, in terms of
    the entries it reads. *)
Lemma Details_after_resolution (range : RangeOrder) l id names e :
  entityOf l id = Some e →
  (Details Unmarshal SeekEntity SeekEntityChanges range l id names).2 =
  if decide (decodable (locatorEntries SeekEntity l e))
  then foldR (insertEntry Unmarshal SeekEntityChanges (badger l) (readTxn l) e) ∅
             (range (accumulatorOf SeekEntity l names e))
  else Panic.
Proof.
  intros He. rewrite (Details_entityOf _ _ _ _ _ _ _ _ He).
  apply loadDetails_snd.
Qed.

(** X1. Once the entity is resolved, [Details] panics exactly when one
    of the locator keys it visits is shorter than 14 bytes, too short
    for the slice and the four-byte read of the dataset id; the filter
    and the deleted flags play no part, since the id is read before
    they are looked at. *)
Theorem Details_panics_on_short_key (range : RangeOrder) (l : Lookup)
    (id : string) (datasetNames : list string) (e : N) :
  entityOf l id = Some e →
  (Details Unmarshal SeekEntity SeekEntityChanges range l id datasetNames).2 = Panic
  ↔ Exists (λ item : Item, length item.1 < 14) (locatorEntries SeekEntity l e).
Proof.
  intros He. rewrite (Details_after_resolution _ _ _ _ _ He).
  assert (decodable (locatorEntries SeekEntity l e)
          ↔ ¬ Exists (λ item : Item, length item.1 < 14) (locatorEntries SeekEntity l e))
    as Hdec.
  { unfold decodable. rewrite <-Forall_Exists_neg.
    apply Forall_proper; [|done]. intros it. rewrite datasetIDOfKey_is_Some. lia. }
  case_decide as Hd.
  - split; [|by intros ?%Hdec].
    intros Hp.
    destruct (foldR_insertEntry_cases (badger l) (readTxn l) e
                (range (accumulatorOf SeekEntity l datasetNames e)) ∅)
      as [(m' & Hm' & _)|[Herr _]]; congruence.
  - split; [|done]. intros _.
    destruct (decide (Exists (λ item : Item, length item.1 < 14)
                             (locatorEntries SeekEntity l e))) as [|Hno]; [done|].
    by apply Hdec in Hno.
Qed.

(** X2. Once the entity is resolved, the only error [Details] returns
    is the decode error, and it returns it exactly when no locator key
    is too short and, for some dataset of the accumulator that has a
    display name, the latest value or an entry of the change log does
    not decode.  It returns a map exactly when no locator key is too
    short and all of these documents decode. *)
Theorem Details_error_iff_corrupt (range : RangeOrder) (l : Lookup)
    (id : string) (datasetNames : list string) (e : N) :
  entityOf l id = Some e →
  (∀ err,
     (Details Unmarshal SeekEntity SeekEntityChanges range l id datasetNames).2 = Err err
     ↔ err = Corrupt
       ∧ decodable (locatorEntries SeekEntity l e)
       ∧ ∃ d b n, accumulatorOf SeekEntity l datasetNames e !! d = Some b
           ∧ LookupDatasetName (badger l) d = Some n
           ∧ (Unmarshal b = None
              ∨ Exists (λ item : Item, Unmarshal item.2 = None)
                       (changeEntries SeekEntityChanges l e d)))
  ∧ ((∃ m, (Details Unmarshal SeekEntity SeekEntityChanges range l id datasetNames).2
           = Ok m)
     ↔ decodable (locatorEntries SeekEntity l e)
       ∧ ∀ d b n, accumulatorOf SeekEntity l datasetNames e !! d = Some b →
           LookupDatasetName (badger l) d = Some n →
           is_Some (Unmarshal b)
           ∧ Forall (λ item : Item, is_Some (Unmarshal item.2))
                    (changeEntries SeekEntityChanges l e d)).
Proof.
  intros He. rewrite (Details_after_resolution _ _ _ _ _ He).
  set (parts := accumulatorOf SeekEntity l datasetNames e).
  assert ((∃ d b n, parts !! d = Some b
             ∧ LookupDatasetName (badger l) d = Some n
             ∧ (Unmarshal b = None
                ∨ Exists (λ item : Item, Unmarshal item.2 = None)
                         (changeEntries SeekEntityChanges l e d)))
          ↔ Exists (λ kv, entryOf Unmarshal SeekEntityChanges (badger l) (readTxn l) e kv
                          = Err Corrupt) (range parts)) as Hbad.
  { rewrite Exists_exists. split.
    - intros (d & b & n & Hb & Hn & Hdoc). exists (d, b).
      split; [by apply elem_of_range|]. apply entryOf_Err. eauto.
    - intros ([d b] & Hin%elem_of_range & (n & Hn & Hdoc)%entryOf_Err).
      by exists d, b, n. }
  split.
  - intros err. case_decide as Hd; [|split; [done|by intros (_ & ? & _)]].
    destruct (foldR_insertEntry_cases (badger l) (readTxn l) e (range parts) ∅)
      as [(m' & Hm' & Hall)|[Herr Hex]].
    + rewrite Hm'. split; [done|]. intros (_ & _ & Hex%Hbad).
      apply Exists_exists in Hex as (kv & Hin & Hkv).
      rewrite Forall_forall in Hall. destruct (Hall kv Hin) as (k & v & Hok).
      congruence.
    + rewrite Herr. split.
      * intros [= <-]. split; [done|]. split; [done|]. by apply Hbad.
      * by intros (-> & _).
  - case_decide as Hd; [|split; [by intros [? ?]|by intros [? _]]].
    destruct (foldR_insertEntry_cases (badger l) (readTxn l) e (range parts) ∅)
      as [(m' & Hm' & Hall)|[Herr Hex]].
    + rewrite Hm'. split; [|by eauto]. intros _. split; [done|].
      intros d b n Hb Hn. rewrite Forall_forall in Hall.
      destruct (Hall (d, b)) as (k & v & Hok); [by apply elem_of_range|].
      apply entryOf_Ok in Hok as [(? & _)|(_ & latest & changes & _ & Hl & Hc)];
        [congruence|].
      split; [by eauto|]. apply Forall_forall. intros item Hitem.
      apply list_elem_of_lookup in Hitem as [i Hi].
      destruct (Forall2_lookup_l _ _ _ _ _ Hc Hi) as (doc' & _ & Hdoc). by eauto.
    + rewrite Herr. split; [by intros [? ?]|]. intros [_ Hgood].
      apply Hbad in Hex as (d & b & n & Hb & Hn & Hdoc).
      destruct (Hgood d b n Hb Hn) as [[latest Hlatest] Hall].
      destruct Hdoc as [?|Hex]; [congruence|].
      apply Exists_exists in Hex as (item & Hin & Hnone).
      rewrite Forall_forall in Hall. destruct (Hall item Hin) as [? ?]. congruence.
Qed.

(** ** What the map holds *)

Lemma accumulator_lookup_Some SeekE l names e d b :
  accumulatorOf SeekE l names e !! d = Some b ↔
  survives (badger l) (LookupDatasetIDs (badger l) names) d = true
  ∧ d ≠ 0%N
  ∧ last (valuesOf d (locatorEntries SeekE l e)) = Some b.
Proof.
  unfold accumulatorOf. rewrite latestPerDataset_lookup.
  destruct (survives _ _ d); cbn; [|split; [done|by intros [? _]]].
  destruct (N.eqb_spec d 0) as [->|Hne]; cbn.
  - split; [done|]. by intros (_ & ? & _).
  - split; [done|]. by intros (_ & _ & ?).
Qed.

(** X3. Every entry of the map [Details] returns comes from one
    dataset that passed the test, has an id other than 0 and holds a
    locator entry of the entity.  If the dataset has no display name
    the entry sits under the decimal rendering of its id and is the
    diagnostic string.  Otherwise it sits under the name; its [latest]
    is the decoded value of the last locator entry of that dataset the
    scan visited, whether or not the entries of the dataset came in one
    run, and its [changes] are the decoded entries of the change log,
    one for one in the order visited. *)
Theorem Details_entry_shape (range : RangeOrder) (l : Lookup) (id : string)
    (datasetNames : list string) (m : gmap string (detail Doc))
    (k : string) (v : detail Doc) :
  (Details Unmarshal SeekEntity SeekEntityChanges range l id datasetNames).2 = Ok m →
  m !! k = Some v →
  ∃ e d b,
    entityOf l id = Some e
    ∧ d ≠ 0%N
    ∧ survives (badger l) (LookupDatasetIDs (badger l) datasetNames) d = true
    ∧ last (valuesOf d (locatorEntries SeekEntity l e)) = Some b
    ∧ ((LookupDatasetName (badger l) d = None ∧ k = pretty d
        ∧ v = Diagnostic "UNEXPECTED: dataset name not found")
       ∨ (LookupDatasetName (badger l) d = Some k
          ∧ ∃ latest changes,
              v = Dataset latest changes ∧ Unmarshal b = Some latest
              ∧ Forall2 (λ (item : Item) doc, Unmarshal item.2 = Some doc)
                        (changeEntries SeekEntityChanges l e d) changes)).
Proof.
  intros (e & He & _ & Hrun)%Details_Ok_inv Hk.
  apply assemble_Ok in Hrun as (_ & Hsub & _).
  destruct (Hsub k v Hk) as (d & b & Hb & Hentry).
  apply (accumulator_lookup_Some SeekEntity l datasetNames e) in Hb as (Hs & Hd0 & Hlast).
  exists e, d, b. do 4 (split; [done|]). by apply entryOf_Ok.
Qed.

(** ** The scope *)

Lemma survives_unrestricted s scope d :
  survives s scope d = true → survives s [] d = true.
Proof. unfold survives. intros [-> _]%andb_true_iff. done. Qed.

(** X4. When the filter resolves to no id, be it empty or made of
    unknown names only, the lookup is unrestricted: on a store with
    ascending keys the keys of the returned map are exactly the result
    keys of the datasets with an id other than 0 that are not flagged
    deleted and in which the entity has a locator entry. *)
Theorem Details_unrestricted_keys (range : RangeOrder) (l : Lookup) (id : string)
    (datasetNames : list string) (m : gmap string (detail Doc)) :
  keysAscending (GetDB (badger l)) →
  LookupDatasetIDs (badger l) datasetNames = [] →
  (Details Unmarshal SeekEntity SeekEntityChanges range l id datasetNames).2 = Ok m →
  ∃ e, entityOf l id = Some e
    ∧ ∀ k, k ∈ dom m ↔
        ∃ d, d ≠ 0%N
             ∧ IsDatasetDeleted (badger l) d = false
             ∧ appearsIn (GetDB (badger l)) (SeekEntity e) d
             ∧ k = resultKey (badger l) d.
Proof.
  intros Hasc Hscope (e & He & _ & Hrun)%Details_Ok_inv.
  exists e. split; [done|].
  apply assemble_Ok in Hrun as (Hdom & _ & _).
  intros k. rewrite Hdom, Hscope. split.
  - intros (d & Hd & ->).
    apply accumulator_dom in Hd as (Hs & Hd0 & Hitem).
    unfold survives in Hs. apply andb_true_iff in Hs as [Hdel _].
    apply negb_true_iff in Hdel.
    exists d. do 2 (split; [done|]). split; [|done].
    by apply (appearsIn_iterate (readTxn l)).
  - intros (d & Hd0 & Hdel & Happ & ->).
    exists d. split; [|done]. apply accumulator_dom.
    split; [|split; [done|]].
    + unfold survives. by rewrite Hdel.
    + by apply (appearsIn_iterate (readTxn l)) in Happ.
Qed.

Lemma accumulator_restricted s scope items d b :
  latestPerDataset s scope items !! d = Some b →
  latestPerDataset s [] items !! d = Some b.
Proof.
  rewrite !latestPerDataset_lookup.
  destruct (survives s scope d) eqn:Hs; [|done].
  by rewrite (survives_unrestricted _ _ _ Hs).
Qed.

(** X5. Narrowing the scope never adds a dataset and never makes the
    call fail: if the unrestricted call returns a map, the call with
    any filter returns a map too, its keys are among the keys of the
    unrestricted map, and, where no two datasets the unrestricted
    call found share a result key, each of its entries is the entry
    the unrestricted map has under that key. *)
Theorem Details_scope_restricts (range : RangeOrder) (l : Lookup) (id : string)
    (datasetNames : list string) (mAll : gmap string (detail Doc)) :
  (Details Unmarshal SeekEntity SeekEntityChanges range l id []).2 = Ok mAll →
  ∃ m,
    (Details Unmarshal SeekEntity SeekEntityChanges range l id datasetNames).2 = Ok m
    ∧ dom m ⊆ dom mAll
    ∧ ((∀ e d d', entityOf l id = Some e →
          d ∈ dom (accumulatorOf SeekEntity l [] e) →
          d' ∈ dom (accumulatorOf SeekEntity l [] e) →
          resultKey (badger l) d = resultKey (badger l) d' → d = d') →
       m ⊆ mAll).
Proof.
  intros (e & He & Hdec & Hall)%Details_Ok_inv.
  change (LookupDatasetIDs (badger l) []) with (@nil N) in Hall.
  pose proof (foldR_insertEntry_inv _ _ _ _ _ _ _ _ Hall) as Hgood.
  destruct (assemble_total Unmarshal SeekEntityChanges range (badger l) (readTxn l) e
              (accumulatorOf SeekEntity l datasetNames e)) as [m Hm].
  { intros d b Hb%accumulator_restricted.
    rewrite Forall_forall in Hgood. apply (Hgood (d, b)). by apply elem_of_range. }
  exists m. split.
  { rewrite (Details_after_resolution _ _ _ _ _ He). by rewrite decide_True. }
  apply assemble_Ok in Hall as (HdomAll & _ & HuniqAll).
  apply assemble_Ok in Hm as (Hdom & Hsub & _).
  split.
  - intros k (d & [b Hb]%elem_of_dom & ->)%Hdom. apply HdomAll.
    exists d. split; [|done]. apply elem_of_dom. exists b.
    by apply accumulator_restricted in Hb.
  - intros Hkeys. apply map_subseteq_spec. intros k v Hk.
    destruct (Hsub k v Hk) as (d & b & Hb & Hentry).
    apply accumulator_restricted in Hb.
    apply (HuniqAll d b k v Hb Hentry).
    intros d' Hd' Hkey. symmetry.
    apply (Hkeys e d d' He); [by apply elem_of_dom; eauto|done|].
    apply entryOf_key in Hentry. cbn in Hentry. congruence.
Qed.

Lemma loadDetails_scope_ext (range : RangeOrder) l rtxn e scope scope' :
  (∀ d, datasetIncluded scope d = datasetIncluded scope' d) →
  loadDetails Unmarshal SeekEntity SeekEntityChanges range l rtxn e scope
  = loadDetails Unmarshal SeekEntity SeekEntityChanges range l rtxn e scope'.
Proof.
  intros Hinc. unfold loadDetails, scanLocator.
  rewrite (foldM_ext _ (λ st item, lift (locatorStep l scope' st item))); [done|].
  intros st item. unfold locatorStep. destruct (datasetIDOfKey item.1); [|done].
  by rewrite Hinc.
Qed.

Lemma datasetIncluded_same_elements scope scope' d :
  (∀ x, x ∈ scope ↔ x ∈ scope') →
  datasetIncluded scope d = datasetIncluded scope' d.
Proof.
  intros Hsame. unfold datasetIncluded.
  destruct scope as [|x scope], scope' as [|x' scope']; cbn [length Nat.eqb].
  - done.
  - assert (x' ∈ @nil N) as Hx by (apply Hsame; by left). by apply elem_of_nil in Hx.
  - assert (x ∈ @nil N) as Hx by (apply Hsame; by left). by apply elem_of_nil in Hx.
  - apply eq_true_iff_eq. rewrite !scopeHas_elem_of. apply Hsame.
Qed.

(** X6. The filter counts as a set of names: two filters with the same
    names, in whatever order and however often repeated, give the same
    call, result and trace alike. *)
Theorem Details_filter_as_set (range : RangeOrder) (l : Lookup) (id : string)
    (datasetNames datasetNames' : list string) :
  (∀ n, n ∈ datasetNames ↔ n ∈ datasetNames') →
  Details Unmarshal SeekEntity SeekEntityChanges range l id datasetNames
  = Details Unmarshal SeekEntity SeekEntityChanges range l id datasetNames'.
Proof.
  intros Hsame.
  assert (∀ rtxn e,
    loadDetails Unmarshal SeekEntity SeekEntityChanges range l rtxn e
      (LookupDatasetIDs (badger l) datasetNames)
    = loadDetails Unmarshal SeekEntity SeekEntityChanges range l rtxn e
        (LookupDatasetIDs (badger l) datasetNames')) as Hload.
  { intros rtxn e. apply loadDetails_scope_ext. intros d.
    apply datasetIncluded_same_elements. intros x.
    unfold LookupDatasetIDs. rewrite !list_elem_of_omap.
    by setoid_rewrite Hsame. }
  unfold Details. apply injective_projections.
  - rewrite !DetailsDuring_fst.
    destruct (asCURIE l id) as [curie| |]; [|done..].
    destruct (InternalIDForCURIE (readTxn l) curie) as [e| |]; [|done..].
    by rewrite Hload.
  - rewrite !DetailsDuring_snd.
    destruct (asCURIE l id) as [curie| |]; [|done..].
    destruct (InternalIDForCURIE (readTxn l) curie) as [e| |]; [|done..].
    by rewrite Hload.
Qed.

(** ** The order of map iteration *)



(** ** The change log on its own *)

(** X8. [loadChanges] opens one iterator on the change-log prefix of
    the pair and closes it again on the error path as on the normal
    one.  It returns either one document per entry under the prefix,
    each the decoding of its entry, in the order visited (none for a
    pair without entries), or the decode error, and then some entry
    under the prefix does not decode; it never panics. *)
Theorem loadChanges_in_order (rtxn : Txn) (internalEntityID internalDatasetID : N) :
  (loadChanges Unmarshal SeekEntityChanges rtxn internalEntityID internalDatasetID).1
  = [IterOpen (SeekEntityChanges internalDatasetID internalEntityID);
     IterClose (SeekEntityChanges internalDatasetID internalEntityID)]
  ∧ match (loadChanges Unmarshal SeekEntityChanges rtxn internalEntityID
             internalDatasetID).2 with
    | Ok docs =>
        Forall2 (λ (item : Item) doc, Unmarshal item.2 = Some doc)
                (iterate rtxn (SeekEntityChanges internalDatasetID internalEntityID))
                docs
    | Err err =>
        err = Corrupt
        ∧ Exists (λ item : Item, Unmarshal item.2 = None)
                 (iterate rtxn (SeekEntityChanges internalDatasetID internalEntityID))
    | Panic => False
    end.
Proof.
  rewrite loadChanges_eq. split; [done|]. cbn [snd]. unfold decodeAll.
  destruct (mapM Unmarshal _) as [docs|] eqn:Hdocs.
  - by apply mapM_decoded.
  - split; [done|]. by apply Exists_undecodable, mapM_None_1.
Qed.

End Outcomes.


(** ** The further properties on the example stores *)

Lemma Details_panics_on_short_key_witness :
  (demoDetails shortLookup "ex:3" []).2 = Panic
  ∧ (demoDetails shortLookup "ex:3" []).1
    = [TxnOpen false; IterOpen (demoSeekEntity 8); IterClose (demoSeekEntity 8);
       TxnDiscard].
Proof.
  split; [|vm_compute; reflexivity].
  apply (Details_panics_on_short_key demoUnmarshal demoSeekEntity demoSeekEntityChanges
           demoRange shortLookup "ex:3" [] 8); [reflexivity|].
  assert (locatorEntries demoSeekEntity shortLookup 8 = shortItems) as ->
    by (vm_compute; reflexivity).
  left. cbn. lia.
Defined.

Lemma Details_error_iff_corrupt_witness :
  ∃ d b n, accumulatorOf demoSeekEntity corruptLookup [] 8 !! d = Some b
    ∧ LookupDatasetName (badger corruptLookup) d = Some n
    ∧ (demoUnmarshal b = None
       ∨ Exists (λ item : Item, demoUnmarshal item.2 = None)
                (changeEntries demoSeekEntityChanges corruptLookup 8 d)).
Proof.
  destruct (Details_error_iff_corrupt demoUnmarshal demoSeekEntity demoSeekEntityChanges
              demoRange corruptLookup "ex:3" [] 8) as [Herr _]; [reflexivity|].
  destruct (proj1 (Herr Corrupt)) as (_ & _ & Hcause); [|exact Hcause].
  vm_compute. reflexivity.
Defined.

Lemma Details_entry_shape_witness :
  ∃ e d b,
    entityOf exLookup "ex:3" = Some e
    ∧ d ≠ 0%N
    ∧ survives (badger exLookup) (LookupDatasetIDs (badger exLookup) []) d = true
    ∧ last (valuesOf d (locatorEntries demoSeekEntity exLookup e)) = Some b
    ∧ ((LookupDatasetName (badger exLookup) d = None ∧ "people" = pretty d
        ∧ Dataset (text frankV2) [(text frankV1); (text frankV2)]
          = Diagnostic "UNEXPECTED: dataset name not found")
       ∨ (LookupDatasetName (badger exLookup) d = Some "people"
          ∧ ∃ latest changes,
              Dataset (text frankV2) [(text frankV1); (text frankV2)]
              = Dataset latest changes
              ∧ demoUnmarshal b = Some latest
              ∧ Forall2 (λ (item : Item) doc, demoUnmarshal item.2 = Some doc)
                        (changeEntries demoSeekEntityChanges exLookup e d) changes)).
Proof.
  apply (Details_entry_shape demoUnmarshal demoSeekEntity demoSeekEntityChanges
           demoRange exLookup "ex:3" [] (returned (demoDetails exLookup "ex:3" []))).
  - vm_compute. reflexivity.
  - vm_compute. reflexivity.
Defined.

Lemma Details_unrestricted_keys_witness :
  LookupDatasetIDs (badger exLookup) ["nosuch"] = []
  ∧ "people" ∈ dom (returned (demoDetails exLookup "ex:3" ["nosuch"]))
  ∧ "contacts" ∈ dom (returned (demoDetails exLookup "ex:3" ["nosuch"])).
Proof.
  split; [reflexivity|].
  destruct (Details_unrestricted_keys demoUnmarshal demoSeekEntity demoSeekEntityChanges
              demoRange exLookup "ex:3" ["nosuch"]
              (returned (demoDetails exLookup "ex:3" ["nosuch"])))
    as (e & He & Hkeys).
  - apply exItems_ascending.
  - reflexivity.
  - vm_compute. reflexivity.
  - assert (e = 8%N) as -> by (vm_compute in He; congruence).
    split; apply Hkeys.
    + exists 1%N. do 2 (split; [done|]). split; [|reflexivity].
      exists (locatorKey 8 1 1, frankV1).
      split; [by left|]. split; reflexivity.
    + exists 2%N. do 2 (split; [done|]). split; [|reflexivity].
      exists (locatorKey 8 2 1, telDoc).
      split; [by do 2 right; left|]. split; reflexivity.
Defined.

Lemma Details_scope_restricts_witness :
  ∃ m, (demoDetails exLookup "ex:3" ["contacts"]).2 = Ok m
    ∧ dom m ⊆ dom (returned (demoDetails exLookup "ex:3" [])).
Proof.
  destruct (Details_scope_restricts demoUnmarshal demoSeekEntity demoSeekEntityChanges
              demoRange exLookup "ex:3" ["contacts"]
              (returned (demoDetails exLookup "ex:3" [])))
    as (m & Hm & Hdom & _).
  - vm_compute. reflexivity.
  - by exists m.
Defined.

Lemma Details_filter_as_set_witness :
  demoDetails exLookup "ex:3" ["people"; "contacts"]
  = demoDetails exLookup "ex:3" ["contacts"; "people"; "contacts"].
Proof.
  apply (Details_filter_as_set demoUnmarshal demoSeekEntity demoSeekEntityChanges
           demoRange exLookup "ex:3").
  intros n. rewrite !elem_of_cons, elem_of_nil. tauto.
Defined.

(** Both orders on the example store give the same map. *)
Example Details_iteration_order_example :
  (Details demoUnmarshal demoSeekEntity demoSeekEntityChanges demoRangeRev
     exLookup "ex:3" []).2
  = (demoDetails exLookup "ex:3" []).2.
Proof. vm_compute. reflexivity. Qed.


(* ================================================================== *)
(** * Properties of the web middleware *)

Lemma prefix_empty (s : string) : String.prefix "" s = true.
Proof. by destruct s. Qed.

Lemma HasPrefix_app (s p more : string) :
  HasPrefix s p = true → HasPrefix (s +:+ more) p = true.
Proof.
  unfold HasPrefix. revert s.
  induction p as [|a p IH]; intros s; [intros _; apply prefix_empty|].
  destruct s as [|b s]; [done|].
  change (String b s +:+ more) with (String b (s +:+ more)). cbn.
  destruct (Ascii.ascii_dec a b); [apply IH|done].
Qed.

Lemma skipper_existsb (mimiroIcon favIcon path : string) :
  skipper mimiroIcon favIcon path
  = existsb (HasPrefix path)
      ["/health"; mimiroIcon; favIcon; "/api"; "/static"; "/security/token"].
Proof.
  unfold skipper. cbn [existsb].
  repeat (destruct (HasPrefix path _); [done|]). done.
Qed.

Lemma HasPrefix_existsb_app (path more : string) (prefixes : list string) :
  existsb (HasPrefix path) prefixes = true →
  existsb (HasPrefix (path +:+ more)) prefixes = true.
Proof.
  rewrite !existsb_exists. intros (p & Hin & Hp). exists p.
  split; [done|]. by apply HasPrefix_app.
Qed.

(** X10. The skipper holds exactly for the paths that start with one of
    [/health], the two icon paths, [/api], [/static] and
    [/security/token]; the test is on characters, not on path
    segments, so every extension of a skipped path is skipped as well,
    [/apix] like [/api/x]. *)
Theorem skipper_prefixes (mimiroIcon favIcon path : string) :
  (skipper mimiroIcon favIcon path = true ↔
   ∃ prefix, prefix ∈ ["/health"; mimiroIcon; favIcon; "/api"; "/static";
                       "/security/token"]
             ∧ HasPrefix path prefix = true)
  ∧ ∀ more, skipper mimiroIcon favIcon path = true →
            skipper mimiroIcon favIcon (path +:+ more) = true.
Proof.
  split.
  - rewrite skipper_existsb, existsb_exists.
    by setoid_rewrite list_elem_of_In.
  - intros more. rewrite !skipper_existsb. apply HasPrefix_existsb_app.
Qed.

Example skipper_api_lookalike :
  skipper "/mimiro.png" "/favicon.ico" "/apikeys" = true
  ∧ skipper "/mimiro.png" "/favicon.ico" "/datasets" = false.
Proof. split; reflexivity. Qed.

Section WebFacts.
Context {PublicKeyT Ctx W HErr : Type}.
Variable NewHTTPError : N → string → HErr.

Lemma eqb_or_iff (s a b : string) :
  String.eqb s a || String.eqb s b = true ↔ s = a ∨ s = b.
Proof. rewrite orb_true_iff, !String.eqb_eq. done. Qed.

(** X11. [setupJWT] never returns an error.  It panics exactly when
    the middleware is [local] or [opa] and the node has no key pair,
    the index 0 being out of range.  Otherwise it hands the JWT handler
    the skipper and the audience, issuer and well-known address of the
    environment; for [local] and [opa] also the public key of the
    first key pair, the others being ignored, and ["node:" + NodeID]
    as node issuer and node audience; for any other middleware the
    node fields stay unset and the key pairs are not looked at. *)
Theorem setupJWT_node_identity (env : Env) (core : @ServiceCore PublicKeyT)
    (skip : string → bool) :
  let nodeSecurity := Middleware (Auth env) = "local" ∨ Middleware (Auth env) = "opa" in
  (setupJWT env core skip = Panic ↔ nodeSecurity ∧ KeyPairs (NodeInfo core) = [])
  ∧ (∀ err, setupJWT env core skip ≠ Err err)
  ∧ (∀ f, setupJWT env core skip = Ok f →
       ∃ config,
         f = JWTHandler config
         ∧ Skipper config = skip
         ∧ JwtAudience config = Audience (Auth env)
         ∧ JwtIssuer config = Issuer (Auth env)
         ∧ Wellknown config = WellKnown (Auth env)
         ∧ NodeAudience config = NodeIssuer config
         ∧ (nodeSecurity →
              NodePublicKey config = PublicKey <$> head (KeyPairs (NodeInfo core))
              ∧ NodeIssuer config = ["node:" +:+ NodeID (NodeInfo core)])
         ∧ (¬ nodeSecurity →
              NodePublicKey config = None ∧ NodeIssuer config = [])).
Proof.
  cbn zeta. unfold setupJWT.
  destruct (String.eqb (Middleware (Auth env)) "local"
            || String.eqb (Middleware (Auth env)) "opa") eqn:Hmode.
  - apply eqb_or_iff in Hmode.
    destruct (KeyPairs (NodeInfo core)) as [|keyPair rest].
    + split; [done|]. split; [done|]. done.
    + split; [split; [done|by intros [_ ?]]|]. split; [done|].
      intros f [= <-]. eexists. split; [done|]. cbn.
      do 5 (split; [done|]). split; [done|]. by intros [].
  - apply not_true_iff_false in Hmode. rewrite eqb_or_iff in Hmode.
    split; [split; [done|by intros [? _]]|]. split; [done|].
    intros f [= <-]. eexists. split; [done|]. cbn.
    do 5 (split; [done|]). split; [done|]. done.
Qed.

(** X12. The authorizer built for [local] and [opa] runs both
    authorizers on every request, the second on the state the first
    left behind.  The only error it returns is 403 with its own
    message, and it returns it exactly when both authorizers return an
    error; an error of the handler itself is never passed on.  When
    both authorizers pass the request on to the next handler, the
    handler runs twice. *)
Theorem bothAuthorizers_outcome (acl opa : @Authorizer Ctx W HErr)
    (scopes : list string) (next : @HandlerFunc Ctx W HErr) (c : Ctx) (w : W) :
  let first := acl scopes next c w in
  let second := opa scopes next c first.2 in
  let both := bothAuthorizers NewHTTPError acl opa scopes next c w in
  both.2 = second.2
  ∧ (both.1 = Some (NewHTTPError 403 "user does not have permission")
     ∨ both.1 = None)
  ∧ (both.1 = None ↔ first.1 = None ∨ second.1 = None)
  ∧ ((∀ w', acl scopes next c w' = next c w') →
     (∀ w', opa scopes next c w' = next c w') →
     both.2 = (next c (next c w).2).2
     ∧ (both.1 = None ↔ (next c w).1 = None ∨ (next c (next c w).2).1 = None)).
Proof.
  cbn zeta. unfold bothAuthorizers.
  destruct (acl scopes next c w) as [err1 w1] eqn:Hacl.
  destruct (opa scopes next c w1) as [err2 w2] eqn:Hopa.
  cbn [fst snd]. rewrite Hopa.
  assert (∀ err : option HErr, bool_decide (err ≠ None) = bool_decide (is_Some err))
    as Hdec.
  { intros err. apply bool_decide_ext. by rewrite not_eq_None_Some. }
  rewrite !Hdec.
  split; [|split; [|split]].
  - by destruct err1, err2.
  - destruct err1, err2; cbn; auto.
  - destruct err1, err2; cbn; intuition congruence.
  - intros Hpass1 Hpass2.
    rewrite Hpass1 in Hacl. rewrite Hacl. cbn [fst snd].
    rewrite Hpass2 in Hopa. rewrite Hopa. cbn [fst snd].
    split; [by destruct err1, err2|].
    destruct err1, err2; cbn; intuition congruence.
Qed.

(** X13. What the middleware setting does across [NewAuthorizer],
    [NewMiddleware] and [configure].  The chain always opens with the
    logger and closes with the recovery.  For [noop] nothing stands in
    between and the no-op authorizer is used.  For [local] and [opa]
    CORS and the JWT handler stand in between, the latter with the
    node identity, and the authorizer is the combined one, or the
    construction panics when the admin user name or password is empty.
    For every other value the no-op authorizer is used, as for [noop]
    and whatever the admin credentials, yet CORS and the JWT handler
    are installed, the latter without node identity. *)
Theorem Middleware_modes (mimiroIcon favIcon : string) (env : Env)
    (core : @ServiceCore PublicKeyT) (acl opa noop auth : @Authorizer Ctx W HErr) :
  let mode := Middleware (Auth env) in
  let skip := skipper mimiroIcon favIcon in
  let chain := λ mw : @MiddlewareT PublicKeyT Ctx W HErr, configure mw [] in
  (mode = "noop" →
     NewAuthorizer NewHTTPError acl opa noop env = Ok noop
     ∧ ∃ mw, NewMiddleware mimiroIcon favIcon env auth core = Ok mw
             ∧ chain mw = [LoggerFilter skip; RecoverWithConfig])
  ∧ (mode = "local" ∨ mode = "opa" →
     NewAuthorizer NewHTTPError acl opa noop env
     = (if String.eqb (AdminUserName env) "" || String.eqb (AdminPassword env) ""
        then Panic else Ok (bothAuthorizers NewHTTPError acl opa))
     ∧ ∀ mw, NewMiddleware mimiroIcon favIcon env auth core = Ok mw →
         ∃ config,
           chain mw = [LoggerFilter skip; setupCors; JWTHandler config;
                       RecoverWithConfig]
           ∧ NodeIssuer config = ["node:" +:+ NodeID (NodeInfo core)]
           ∧ is_Some (NodePublicKey config))
  ∧ (mode ≠ "noop" → mode ≠ "local" → mode ≠ "opa" →
     NewAuthorizer NewHTTPError acl opa noop env = Ok noop
     ∧ ∃ mw config,
         NewMiddleware mimiroIcon favIcon env auth core = Ok mw
         ∧ chain mw = [LoggerFilter skip; setupCors; JWTHandler config;
                       RecoverWithConfig]
         ∧ NodePublicKey config = None
         ∧ NodeIssuer config = []).
Proof.
  cbn zeta. unfold NewAuthorizer, NewMiddleware, setupJWT, configure.
  split; [|split].
  - intros Hmode. rewrite Hmode. cbn. split; [done|].
    eexists. split; [reflexivity|]. cbn. by rewrite Hmode.
  - intros Hmode. pose proof Hmode as Hb. apply eqb_or_iff in Hb. rewrite Hb.
    split; [done|].
    destruct (KeyPairs (NodeInfo core)) as [|keyPair rest]; [done|].
    intros mw [= <-]. cbn.
    assert (String.eqb (Middleware (Auth env)) "noop" = false) as ->.
    { apply String.eqb_neq. by destruct Hmode as [-> | ->]. }
    eexists. split; [reflexivity|]. cbn. split; [done|]. by eexists.
  - intros Hnoop Hlocal Hopa.
    assert (String.eqb (Middleware (Auth env)) "local"
            || String.eqb (Middleware (Auth env)) "opa" = false) as ->.
    { apply not_true_iff_false. rewrite eqb_or_iff. by intros [|]. }
    split; [done|]. eexists. eexists. split; [reflexivity|]. cbn.
    apply String.eqb_neq in Hnoop. rewrite Hnoop. done.
Qed.

End WebFacts.

(** With [Local] for [local] the JWT handler is installed and the
    authorizer lets everything through. *)
Example Middleware_modes_misspelt :
  NewAuthorizer (Ctx:=unit) (W:=unit) (λ _ _, "403")
    (λ _ next, next) (λ _ next, next) (λ _ next, next) (demoEnv "Local" "" "")
  = Ok (λ _ next, next)
  ∧ (match NewMiddleware "/mimiro.png" "/favicon.ico" (demoEnv "Local" "" "")
             (λ (_ : list string) (next : @HandlerFunc unit unit string), next)
             (demoNode []) with
     | Ok mw => length (configure mw [])
     | _ => 0
     end) = 4.
Proof. split; reflexivity. Qed.

(* ================================================================== *)
(** * Properties of the instance *)

(** X14. [NewDatahubInstance] returns an error only for the metrics
    client and for the backup manager.  The errors of the event bus and
    of the web service are assigned and never looked at: the instance
    is returned with a nil error whether or not these two failed.
    When the metrics client fails the store has not been opened; when
    the authorizer panics or the backup manager fails, it has been
    opened already; the web service is built exactly when the instance
    is returned. *)
Theorem NewDatahubInstance_errors {E : Type} (c : constructors E) :
  (∀ err, (NewDatahubInstance c).2 = Failed err ↔
          metricsErr c = Some err
          ∨ (metricsErr c = None ∧ authorizerPanics c = false
             ∧ backupErr c = Some err))
  ∧ ((NewDatahubInstance c).2 = Done tt ↔
     metricsErr c = None ∧ authorizerPanics c = false ∧ backupErr c = None)
  ∧ ((NewDatahubInstance c).2 = Panicked ↔
     metricsErr c = None ∧ authorizerPanics c = true)
  ∧ (PStore ∈ (NewDatahubInstance c).1 ↔ metricsErr c = None)
  ∧ (PWebService ∈ (NewDatahubInstance c).1 ↔ (NewDatahubInstance c).2 = Done tt).
Proof.
  unfold NewDatahubInstance.
  destruct (metricsErr c) as [e0|], (authorizerPanics c), (backupErr c) as [e1|];
    cbn [fst snd app].
  all: split; [intros err; intuition congruence|].
  all: split; [intuition congruence|].
  all: split; [intuition congruence|].
  all: split; (split; [intros Hin|intros Heq]); try done;
         try (by apply (bool_decide_unpack _); vm_compute);
         try (by apply (bool_decide_pack _) in Hin; vm_compute in Hin).
Qed.
